(** * The gallery content model of UNITES-Lab.github.io

    A shallow embedding of [js/gallery.js]: the filename parser
    [parseFilename], the category view [groupByCategory], the date heuristic
    [parseDateFromDescription] and the timeline view [groupByYearMonth],
    together with the parts of the JavaScript runtime they call; then the
    markup made of the two views, from [generateItemHTML] to
    [generateTimelineHTML], and the markup of the page.

    Conventions of the embedding.
    - A JavaScript string is a [string]: a sequence of code units, one
      [ascii] per unit.  The embedding therefore covers the strings whose code
      units are below 256 (every name in [GALLERY_IMAGES] is of that kind).
    - A Number is a [JS.Number]: not-a-number, an infinity, or an integer
      valued double.  [parseInt] and the subtraction of the sort comparator
      only ever produce such values here.  The sign of a zero is not tracked;
      nothing in the program looks at it.
    - An object used as a dictionary is an association list of its own
      properties in insertion order; a property read that misses the own
      properties continues in [Object.prototype], as in the language.
    - A function that can throw returns a [JS.Completion]. *)

From Stdlib Require Import String Ascii List ZArith NArith Lia Bool.
From Stdlib Require Import Sorted Permutation.
Import ListNotations.

Local Open Scope string_scope.
Local Open Scope list_scope.

(** ** The runtime: strings, numbers, objects *)

Module JS.

(** *** Characters *)

Definition code (c : ascii) : N := N_of_ascii c.

Definition inRange (lo hi : N) (c : ascii) : bool :=
  ((lo <=? code c) && (code c <=? hi))%N.

Definition isUpperAZ (c : ascii) : bool := inRange 65 90 c.
Definition isLowerAZ (c : ascii) : bool := inRange 97 122 c.

(** The character class [[A-Za-z]]. *)
Definition isAlpha (c : ascii) : bool := isUpperAZ c || isLowerAZ c.

(** The character class [\d]. *)
Definition isDigit (c : ascii) : bool := inRange 48 57 c.

(** LineTerminator: LF and CR (the two others lie above 255).  The regular
    expression atom [.] matches everything else. *)
Definition isLineTerminator (c : ascii) : bool :=
  ((code c =? 10) || (code c =? 13))%N.

(** WhiteSpace and LineTerminator together: TAB, LF, VT, FF, CR, SP and NBSP.
    This one set is the class [\s], what [trim] removes, and what [parseInt]
    skips in front of the number. *)
Definition isWhiteSpace (c : ascii) : bool :=
  (inRange 9 13 c || (code c =? 32) || (code c =? 160))%N.

(** [String.prototype.toLowerCase] on one code unit below 256: the letters
    A-Z, and the Latin-1 capitals U+00C0..U+00DE without the sign U+00D7. *)
Definition toLowerChar (c : ascii) : ascii :=
  if isUpperAZ c || (inRange 192 222 c && negb (code c =? 215)%N)
  then ascii_of_N (code c + 32)
  else c.

(** Case folding of a regular expression with the flag [i] and without the
    flag [u]: a code unit of 128 or more never folds onto an ASCII letter, so
    against an ASCII pattern only A-Z and a-z are identified. *)
Definition foldCase (c : ascii) : ascii :=
  if isUpperAZ c then ascii_of_N (code c + 32) else c.

Definition eqIgnoreCase (p c : ascii) : bool :=
  Ascii.eqb (foldCase p) (foldCase c).

(** *** Strings *)

Fixpoint toLowerCase (s : string) : string :=
  match s with
  | EmptyString => EmptyString
  | String c rest => String (toLowerChar c) (toLowerCase rest)
  end.

Fixpoint allChars (p : ascii -> bool) (s : string) : bool :=
  match s with
  | EmptyString => true
  | String c rest => p c && allChars p rest
  end.

Fixpoint dropWhile (p : ascii -> bool) (s : string) : string :=
  match s with
  | EmptyString => EmptyString
  | String c rest => if p c then dropWhile p rest else s
  end.

Fixpoint takeWhile (p : ascii -> bool) (s : string) : string :=
  match s with
  | EmptyString => EmptyString
  | String c rest => if p c then String c (takeWhile p rest) else EmptyString
  end.

Fixpoint reverse (s : string) : string :=
  match s with
  | EmptyString => EmptyString
  | String c rest => reverse rest ++ String c EmptyString
  end.

(** [String.prototype.trim]. *)
Definition trim (s : string) : string :=
  reverse (dropWhile isWhiteSpace (reverse (dropWhile isWhiteSpace s))).

(** The whole of [s] is [p], letter case aside. *)
Fixpoint equalsIgnoreCase (p s : string) : bool :=
  match p, s with
  | EmptyString, EmptyString => true
  | String a p', String b s' => eqIgnoreCase a b && equalsIgnoreCase p' s'
  | _, _ => false
  end.

(** [s.split(sep)] for a separator of one character.  The result is never
    empty: a string without the separator is returned as its only element. *)
Fixpoint split (sep : ascii) (s : string) : list string :=
  match s with
  | EmptyString => [EmptyString]
  | String c rest =>
      if Ascii.eqb c sep then EmptyString :: split sep rest
      else match split sep rest with
           | [] => [String c EmptyString]
           | seg :: segs => String c seg :: segs
           end
  end.

(** [parts.join(sep)]. *)
Fixpoint join (sep : string) (parts : list string) : string :=
  match parts with
  | [] => EmptyString
  | [x] => x
  | x :: rest => x ++ sep ++ join sep rest
  end.

(** [parts.slice(n)]. *)
Definition slice {A : Type} (n : nat) (parts : list A) : list A := skipn n parts.

(** *** Numbers *)

Inductive Number : Type :=
  | NaN
  | Fin (z : Z)
  | Inf (negative : bool).

Definition Number_eqb (a b : Number) : bool :=
  match a, b with
  | NaN, NaN => true
  | Fin x, Fin y => (x =? y)%Z
  | Inf s, Inf t => Bool.eqb s t
  | _, _ => false
  end.

(** The double nearest to the integer [z], ties to the even significand; an
    integer that rounds to 2^1024 or more becomes an infinity. *)
Definition ofInteger (z : Z) : Number :=
  let a := Z.abs z in
  if (a <? 2 ^ 53)%Z then Fin z
  else
    let e := (Z.log2 a - 52)%Z in
    let q := (a / 2 ^ e)%Z in
    let r := (a mod 2 ^ e)%Z in
    let half := (2 ^ (e - 1))%Z in
    let q' := if (half <? r)%Z || ((r =? half)%Z && Z.odd q) then (q + 1)%Z else q in
    let m := (q' * 2 ^ e)%Z in
    if (2 ^ 1024 <=? m)%Z then Inf (z <? 0)%Z else Fin (Z.sgn z * m).

(** [a - b] on these values. *)
Definition sub (a b : Number) : Number :=
  match a, b with
  | NaN, _ | _, NaN => NaN
  | Fin x, Fin y => ofInteger (x - y)
  | Fin _, Inf s => Inf (negb s)
  | Inf s, Fin _ => Inf s
  | Inf s, Inf t => if Bool.eqb s t then NaN else Inf s
  end.

(** [v > 0] and [a < b]; both are false as soon as a NaN is involved. *)
Definition isPositive (v : Number) : bool :=
  match v with
  | NaN => false
  | Fin z => (0 <? z)%Z
  | Inf s => negb s
  end.

Definition lt (a b : Number) : bool :=
  match a, b with
  | NaN, _ | _, NaN => false
  | Fin x, Fin y => (x <? y)%Z
  | Fin _, Inf s => negb s
  | Inf s, Fin _ => s
  | Inf s, Inf t => s && negb t
  end.

Definition digitValue (c : ascii) : Z := Z.of_N (code c - 48).

Fixpoint digitsValue (acc : Z) (s : string) : Z :=
  match s with
  | EmptyString => acc
  | String c rest => digitsValue (10 * acc + digitValue c) rest
  end.

(** [parseInt(s, 10)]: leading white space is skipped, one sign is read, then
    the longest run of decimal digits; without a digit the result is NaN.
    The value is the nearest double of the integer read (the language lets an
    implementation round a number of more than twenty digits less exactly; the
    exact rounding is taken here). *)
Definition parseInt10 (s : string) : Number :=
  let s1 := dropWhile isWhiteSpace s in
  let '(negative, s2) :=
    match s1 with
    | String "-" rest => (true, rest)
    | String "+" rest => (false, rest)
    | _ => (false, s1)
    end in
  let digits := takeWhile isDigit s2 in
  match digits with
  | EmptyString => NaN
  | _ => let n := digitsValue 0 digits in
         ofInteger (if negative then (- n)%Z else n)
  end.

(** *** Objects *)

(** The outcome of a call: a value, or a thrown error. *)
Inductive Error : Type := TypeError.

Inductive Completion (A : Type) : Type :=
  | Normal (a : A)
  | Throw (e : Error).
Arguments Normal {A} a.
Arguments Throw {A} e.

(** The own properties of an object, in insertion order.  [Dict] is keyed by
    any type with a decidable equality; an object literal is keyed by
    strings. *)
Definition Dict (K A : Type) : Type := list (K * A).

Section Dict.
Context {K A : Type} (eqb : K -> K -> bool).

Fixpoint lookup (o : Dict K A) (k : K) : option A :=
  match o with
  | [] => None
  | (k', v) :: rest => if eqb k' k then Some v else lookup rest k
  end.

(** [o[k] = v]: an own property keeps its place, a new one goes last. *)
Fixpoint update (o : Dict K A) (k : K) (v : A) : Dict K A :=
  match o with
  | [] => [(k, v)]
  | (k', v') :: rest =>
      if eqb k' k then (k', v) :: rest else (k', v') :: update rest k v
  end.
End Dict.

Definition Obj (A : Type) : Type := Dict string A.

Definition keys {A : Type} (o : Obj A) : list string := map fst o.

Definition getOwn {A : Type} (o : Obj A) (k : string) : option A :=
  lookup String.eqb o k.

Definition setOwn {A : Type} (o : Obj A) (k : string) (v : A) : Obj A :=
  update String.eqb o k v.

(** The properties every object literal inherits from [Object.prototype].
    Each of them holds a function or an object, hence a truthy value. *)
Definition ObjectPrototype : list string :=
  [ "constructor"; "hasOwnProperty"; "isPrototypeOf"; "propertyIsEnumerable";
    "toLocaleString"; "toString"; "valueOf"; "__proto__";
    "__defineGetter__"; "__defineSetter__";
    "__lookupGetter__"; "__lookupSetter__" ].

Definition inherited (k : string) : bool :=
  existsb (String.eqb k) ObjectPrototype.

(** The property read [o[k]] on an object literal. *)
Inductive Property (A : Type) : Type :=
  | OwnValue (v : A)
  | Inherited (name : string)
  | Undefined.
Arguments OwnValue {A} v.
Arguments Inherited {A} name.
Arguments Undefined {A}.

Definition get {A : Type} (o : Obj A) (k : string) : Property A :=
  match getOwn o k with
  | Some v => OwnValue v
  | None => if inherited k then Inherited k else Undefined
  end.

(** Truthiness of [o[k]] when the own values are objects or arrays. *)
Definition truthy {A : Type} (p : Property A) : bool :=
  match p with
  | OwnValue _ => true
  | Inherited _ => true
  | Undefined => false
  end.

(** *** Arrays *)

(** [l.forEach(f)] for a callback that updates a state and may throw: the
    first throw ends the loop and is passed on. *)
Fixpoint forEach {A S : Type} (f : S -> A -> Completion S) (l : list A) (s : S)
  : Completion S :=
  match l with
  | [] => Normal s
  | x :: rest =>
      match f s x with
      | Normal s' => forEach f rest s'
      | Throw e => Throw e
      end
  end.

(** [l.sort(comparefn)].  The language requires a stable sort and reads a NaN
    returned by [comparefn] as zero.  Where [comparefn] is a consistent
    comparison of the elements, the result is fixed by that requirement, and
    it is the result of the insertion sort below.  Where it is not, the
    language leaves the order to the implementation; the insertion sort is
    then one of the orders an implementation may give, an engine may give
    another (as soon as a NaN order stands among three or more elements), and
    nothing is stated about the order of the elements in that case. *)
Section Sort.
Context {A : Type} (comparefn : A -> A -> Number).

Fixpoint insert (x : A) (sorted : list A) : list A :=
  match sorted with
  | [] => [x]
  | y :: rest =>
      if isPositive (comparefn x y) then y :: insert x rest
      else x :: sorted
  end.

Fixpoint sort (l : list A) : list A :=
  match l with
  | [] => []
  | x :: rest => insert x (sort rest)
  end.
End Sort.

End JS.

(** ** The program *)

Module Gallery.
Import JS.

(** *** Configuration *)

Module Config.
Record t : Type := { title : string; description : string; anchor : string }.
End Config.

Definition CATEGORIES : Obj Config.t :=
  [ ("conference",
     {| Config.title := "Conference Moments";
        Config.description := "Snapshots from major AI/ML conferences where we present our research and connect with the community.";
        Config.anchor := "conferences" |});
    ("activity",
     {| Config.title := "Group Activities";
        Config.description := "Group meetings, seminars, and academic discussions that foster collaboration and learning.";
        Config.anchor := "group-activities" |});
    ("lablife",
     {| Config.title := "Lab Life";
        Config.description := "Beyond research - celebrations, team building, and the moments that make our lab feel like a family.";
        Config.anchor := "lab-life" |});
    ("campus",
     {| Config.title := "UNC Chapel Hill Campus";
        Config.description := "The beautiful University of North Carolina at Chapel Hill campus - our academic home. Go Tar Heels!";
        Config.anchor := "campus" |}) ].

Definition MONTH_NAMES : list string :=
  [ "Jan"; "Feb"; "Mar"; "Apr"; "May"; "Jun";
    "Jul"; "Aug"; "Sep"; "Oct"; "Nov"; "Dec" ].

Definition MONTH_MAP : Obj nat :=
  [ ("jan", 0); ("feb", 1); ("mar", 2); ("apr", 3); ("may", 4); ("jun", 5);
    ("jul", 6); ("aug", 7); ("sep", 8); ("oct", 9); ("nov", 10); ("dec", 11) ]%nat.

(** *** parseFilename *)

(** The object [parseFilename] returns. *)
Record ParsedInfo : Type :=
  { filename : string;
    category : string;
    order : Number;
    description : string }.

(** What [console.warn] is called with before [null] is returned. *)
Inductive Warning : Type :=
  | InvalidFilenameFormat (filename : string)
  | UnknownCategory (category filename : string).

(** The result of [parseFilename]: the object, or [null] together with the
    warning that went with it. *)
Inductive ParseResult : Type :=
  | Parsed (parsed : ParsedInfo)
  | Rejected (warning : Warning).

Definition IMAGE_EXTENSIONS : list string := [ "jpg"; "jpeg"; "png"; "gif"; "webp" ].

(** The pattern [\.(jpg|jpeg|png|gif|webp)$] with flag [i], tried at the
    first character of [s]: a dot, one of the alternatives in their order,
    then the end of the input. *)
Definition isImageExtension (s : string) : bool :=
  existsb (fun ext => equalsIgnoreCase ext s) IMAGE_EXTENSIONS.

Definition matchExtensionAt (s : string) : bool :=
  match s with
  | String c rest => Ascii.eqb c "." && isImageExtension rest
  | EmptyString => false
  end.

(** [filename.replace(/\.(jpg|jpeg|png|gif|webp)$/i, '')]: the leftmost match
    is replaced by the empty string; a match runs to the end of the input, so
    what is left is the text in front of it. *)
Fixpoint removeExtension (s : string) : string :=
  match s with
  | EmptyString => EmptyString
  | String c rest =>
      if matchExtensionAt s then EmptyString else String c (removeExtension rest)
  end.

(** The body of [parseFilename] from the split on. *)
Definition parseName (filename nameWithoutExt : string) : ParseResult :=
  let parts := split "_" nameWithoutExt in
  if (List.length parts <? 3)%nat then Rejected (InvalidFilenameFormat filename)
  else
    let category := toLowerCase (nth 0 parts "") in
    let order := parseInt10 (nth 1 parts "") in
    let description := join "_" (slice 2 parts) in
    if negb (truthy (get CATEGORIES category))
    then Rejected (UnknownCategory category filename)
    else Parsed {| filename := filename; category := category;
                   order := order; description := description |}.

Definition parseFilename (filename : string) : ParseResult :=
  let nameWithoutExt := removeExtension filename in
  parseName filename nameWithoutExt.

(** *** groupByCategory *)

Definition Grouped : Type := Obj (list ParsedInfo).

(** [(a, b) => a.order - b.order] *)
Definition byOrder (a b : ParsedInfo) : Number := sub (order a) (order b).

(** [grouped[parsed.category].push(parsed)]: the read goes through the
    prototype chain; what it finds there is a function, which has no [push],
    and calling the missing method throws. *)
Definition pushParsed (grouped : Grouped) (parsed : ParsedInfo) : Completion Grouped :=
  match get grouped (category parsed) with
  | OwnValue items => Normal (setOwn grouped (category parsed) (items ++ [parsed]))
  | Inherited _ => Throw TypeError
  | Undefined => Throw TypeError
  end.

Definition initGrouped : Grouped :=
  fold_left (fun grouped cat => setOwn grouped cat []) (keys CATEGORIES) [].

Definition groupByCategory (images : list string) : Completion Grouped :=
  let grouped := initGrouped in
  match
    forEach (fun grouped filename =>
               match parseFilename filename with
               | Parsed parsed => pushParsed grouped parsed
               | Rejected _ => Normal grouped
               end) images grouped
  with
  | Throw e => Throw e
  | Normal grouped =>
      (* every own array is sorted in place *)
      Normal (map (fun '(cat, items) => (cat, sort byOrder items)) grouped)
  end.

(** *** parseDateFromDescription *)

Record DateInfo : Type :=
  { year : Number;
    month : nat;
    monthName : string;
    event : string }.

(** [n] characters of the class [p] at the start of [s], and the rest. *)
Fixpoint takeExactly (n : nat) (p : ascii -> bool) (s : string) : option (string * string) :=
  match n with
  | O => Some (EmptyString, s)
  | S n' =>
      match s with
      | String c rest =>
          if p c then
            match takeExactly n' p rest with
            | Some (taken, rest') => Some (String c taken, rest')
            | None => None
            end
          else None
      | EmptyString => None
      end
  end.

Fixpoint dropChars (n : nat) (s : string) : string :=
  match n, s with
  | S n', String _ rest => dropChars n' rest
  | _, _ => s
  end.

(** The end of the pattern, [\s*(.+)$], on the text after the hyphen.  [\s*]
    first takes all [k] white space characters and gives them back one at a
    time until [(.+)$] matches: a group that is not empty and holds no line
    terminator. *)
Fixpoint matchEvent (k : nat) (s : string) : option string :=
  let group := dropChars k s in
  if negb (String.eqb group "") && allChars (fun c => negb (isLineTerminator c)) group
  then Some group
  else match k with
       | O => None
       | S k' => matchEvent k' s
       end.

(** [description.match(/^([A-Za-z]{3})\s+(\d{4})\s*-\s*(.+)$/)]: the three
    groups of the match.  A digit and the hyphen are no white space, so the
    first two runs of [\s] can only end where the white space ends. *)
Definition matchDate (description : string) : option (string * string * string) :=
  match takeExactly 3 isAlpha description with
  | None => None
  | Some (g1, rest1) =>
      match takeWhile isWhiteSpace rest1 with
      | EmptyString => None
      | _ =>
          match takeExactly 4 isDigit (dropWhile isWhiteSpace rest1) with
          | None => None
          | Some (g2, rest2) =>
              match dropWhile isWhiteSpace rest2 with
              | String "-" rest3 =>
                  match matchEvent (String.length (takeWhile isWhiteSpace rest3)) rest3 with
                  | Some g3 => Some (g1, g2, g3)
                  | None => None
                  end
              | _ => None
              end
          end
      end
  end.

(** The read [MONTH_MAP[monthStr]] is compared with [undefined].  A key of
    three letters is never an inherited one (see [inherited_three_letters]),
    so the branch [Inherited] is not taken after a match. *)
Definition parseDateFromDescription (description : string) : option DateInfo :=
  match matchDate description with
  | None => None
  | Some (g1, g2, g3) =>
      let monthStr := toLowerCase g1 in
      let year := parseInt10 g2 in
      let event := trim g3 in
      match get MONTH_MAP monthStr with
      | Undefined => None
      | OwnValue month =>
          Some {| year := year; month := month;
                  monthName := nth month MONTH_NAMES ""; event := event |}
      | Inherited _ => None
      end
  end.

(** *** groupByYearMonth *)

(** [{...parsed, dateInfo: dateInfo}] *)
Record TimelineEntry : Type :=
  { parsed : ParsedInfo;
    dateInfo : DateInfo }.

(** [grouped[year][month]]: the keys are the numbers [year] and [month]
    (their decimal strings are never names of [Object.prototype]).  The lists
    keep the keys in the order of their first use; the order in which the
    language enumerates them is not part of the embedding. *)
Definition Months : Type := Dict nat (list TimelineEntry).
Definition Timeline : Type := Dict Number Months.

Definition addEntry (grouped : Timeline) (entry : TimelineEntry) : Timeline :=
  let year := year (dateInfo entry) in
  let month := month (dateInfo entry) in
  let grouped :=
    match lookup Number_eqb grouped year with
    | None => update Number_eqb grouped year []
    | Some _ => grouped
    end in
  let months :=
    match lookup Number_eqb grouped year with
    | Some months => months
    | None => []
    end in
  let months :=
    match lookup Nat.eqb months month with
    | None => update Nat.eqb months month []
    | Some _ => months
    end in
  let items :=
    match lookup Nat.eqb months month with
    | Some items => items
    | None => []
    end in
  update Number_eqb grouped year (update Nat.eqb months month (items ++ [entry])).

Definition groupByYearMonth (images : list string) : Timeline :=
  fold_left
    (fun grouped filename =>
       match parseFilename filename with
       | Rejected _ => grouped
       | Parsed parsed =>
           match parseDateFromDescription (description parsed) with
           | None => grouped
           | Some dateInfo =>
               addEntry grouped {| parsed := parsed; dateInfo := dateInfo |}
           end
       end)
    images [].

End Gallery.

Import JS Gallery.

(** ** The markup *)

Module Render.
Import JS Gallery.

(** *** Text *)

Definition nl : string := String (ascii_of_nat 10) EmptyString.

(** The double quote. *)
Definition dq : string := String (ascii_of_nat 34) EmptyString.

(** A template literal: its pieces, one behind the other. *)
Definition text (parts : list string) : string :=
  fold_right append EmptyString parts.

Definition digitChar (d : N) : ascii := ascii_of_N (48 + d).

Fixpoint decimalDigits (fuel : nat) (n : N) (acc : string) : string :=
  match fuel with
  | O => acc
  | S fuel' =>
      let acc' := String (digitChar (n mod 10)) acc in
      if (n <? 10)%N then acc' else decimalDigits fuel' (n / 10) acc'
  end.

(** The decimal digits of a natural number; a number has no more decimal
    digits than binary ones, which bounds the recursion. *)
Definition decimal (n : N) : string :=
  decimalDigits (S (N.to_nat (N.size n))) n EmptyString.

(** [String(n)], as a template literal and a property key apply it.  The
    digits are those of the language for whole numbers below 10^21 in
    absolute value; beyond that the language writes an exponent, which is
    not part of the embedding. *)
Definition toString (n : Number) : string :=
  match n with
  | NaN => "NaN"
  | Inf false => "Infinity"
  | Inf true => "-Infinity"
  | Fin z =>
      if (z <? 0)%Z then ("-" ++ decimal (Z.to_N (- z)))%string else decimal (Z.to_N z)
  end.

(** [l.map((x, index) => f(x, index))] *)
Fixpoint mapFrom {A B : Type} (index : nat) (f : A -> nat -> B) (l : list A) : list B :=
  match l with
  | [] => []
  | x :: rest => f x index :: mapFrom (S index) f rest
  end.

Definition mapi {A B : Type} (f : A -> nat -> B) (l : list A) : list B :=
  mapFrom 0 f l.

(** *** The category sections *)

Definition generateItemHTML (item : ParsedInfo) (category : string) (index : nat) : string :=
  let imagePath := ("gallery/" ++ filename item)%string in
  let delay := (index mod 4) * 50 in
  text [
      nl;
      "            <div class="; dq; "gallery-item"; dq; " data-aos="; dq; "fade-up"; dq;
        " data-aos-delay="; dq; decimal (N.of_nat delay); dq; " data-aos-duration="; dq; "300";
        dq; ">"; nl;
      "                <a href="; dq; imagePath; dq; " data-fancybox="; dq; category; dq;
        " data-caption="; dq; description item; dq; ">"; nl;
      "                    <img src="; dq; imagePath; dq; " alt="; dq; description item; dq;
        " loading="; dq; "lazy"; dq; ">"; nl;
      "                </a>"; nl;
      "                <p class="; dq; "gallery-caption"; dq; ">"; description item; "</p>";
        nl;
      "            </div>"; nl;
      "        " ].

(** The template of [generateSectionHTML], for the three properties read
    from [config]. *)
Definition sectionTemplate (anchor title about itemsHTML : string) : string :=
  text [
      nl;
      "            <div class="; dq; "row"; dq; " style="; dq; "margin-top: 40px;"; dq; ">";
        nl;
      "                <div class="; dq; "col-lg-12"; dq; " id="; dq; anchor; dq; ">"; nl;
      "                    <div class="; dq; "section-title"; dq; " style="; dq;
        "margin-bottom:20px"; dq; " data-aos="; dq; "fade-up"; dq; " data-aos-duration="; dq;
        "300"; dq; ">"; nl;
      "                        <h2>"; title; "</h2>"; nl;
      "                    </div>"; nl;
      "                    <p class="; dq; "gallery-section-desc"; dq; " data-aos="; dq;
        "fade-up"; dq; " data-aos-duration="; dq; "300"; dq; " data-aos-delay="; dq; "50"; dq;
        ">"; about; "</p>"; nl;
      "                    <div class="; dq; "gallery-grid"; dq; ">"; nl;
      "                        "; itemsHTML; nl;
      "                    </div>"; nl;
      "                    <p class="; dq; "back-to-top"; dq; "><a href="; dq; "#top"; dq;
        ">Back to Top</a></p>"; nl;
      "                </div>"; nl;
      "            </div>"; nl;
      "        " ].

(** [config] is [CATEGORIES[categoryKey]], read through the prototype chain.
    An inherited value is a function or an object without the properties
    [anchor], [title] and [description], so the template shows [undefined]
    for them; with no value at all, reading [config.anchor] throws. *)
Definition generateSectionHTML (categoryKey : string) (items : list ParsedInfo)
  : Completion string :=
  let config := get CATEGORIES categoryKey in
  match items with
  | [] => Normal EmptyString
  | _ =>
      let itemsHTML :=
        join "" (mapi (fun item index => generateItemHTML item categoryKey index) items) in
      match config with
      | OwnValue config =>
          Normal (sectionTemplate (Config.anchor config) (Config.title config)
                                  (Config.description config) itemsHTML)
      | Inherited _ =>
          Normal (sectionTemplate "undefined" "undefined" "undefined" itemsHTML)
      | Undefined => Throw TypeError
      end
  end.

(** *** The quick navigation *)

Definition categoryLink (config : Config.t) : string :=
  text [
      "<a href="; dq; "#"; Config.anchor config; dq; ">"; Config.title config; "</a>" ].

Definition timelineLink : string :=
  text [ "<a href="; dq; "#timeline"; dq; ">Timeline</a>" ].

(** The array [links] of [generateQuickNav].  The loop runs over the keys of
    [CATEGORIES] and reads [CATEGORIES[cat]] for each, that is, it runs over
    the entries.  None of the four keys is an inherited name, so the branch
    [Inherited] of the read [grouped[cat]] is not taken. *)
Definition quickNavLinks (grouped : Grouped) : list string :=
  fold_left
    (fun links '(cat, config) =>
       match get grouped cat with
       | OwnValue items =>
           if (0 <? List.length items)%nat then links ++ [categoryLink config] else links
       | Inherited _ => links
       | Undefined => links
       end)
    CATEGORIES []
  ++ [timelineLink].

Definition generateQuickNav (grouped : Grouped) : string :=
  join " | " (quickNavLinks grouped).

(** *** The timeline *)

Definition generateTimelinePhotoHTML (item : TimelineEntry) : string :=
  let imagePath := ("gallery/" ++ filename (parsed item))%string in
  text [
      nl;
      "            <div class="; dq; "timeline-photo"; dq; ">"; nl;
      "                <a href="; dq; imagePath; dq; " data-fancybox="; dq; "timeline"; dq;
        " data-caption="; dq; description (parsed item); dq; ">"; nl;
      "                    <img src="; dq; imagePath; dq; " alt="; dq;
        description (parsed item); dq; " loading="; dq; "lazy"; dq; ">"; nl;
      "                </a>"; nl;
      "                <span class="; dq; "timeline-photo-caption"; dq; ">";
        description (parsed item); "</span>"; nl;
      "            </div>"; nl;
      "        " ].

(** [MONTH_NAMES[month]], shown as [undefined] outside the twelve indices. *)
Definition monthNameAt (month : Number) : string :=
  match month with
  | Fin z => if ((0 <=? z) && (z <? 12))%Z then nth (Z.to_nat z) MONTH_NAMES "" else "undefined"
  | _ => "undefined"
  end.

Definition generateTimelineMonthHTML (month : Number) (items : list TimelineEntry) (index : nat)
  : string :=
  let monthName := monthNameAt month in
  let photosHTML := join "" (map generateTimelinePhotoHTML items) in
  let delay := (index mod 6) * 30 in
  text [
      nl;
      "            <div class="; dq; "timeline-entry"; dq; " data-aos="; dq; "fade-up"; dq;
        " data-aos-delay="; dq; decimal (N.of_nat delay); dq; " data-aos-duration="; dq; "300";
        dq; ">"; nl;
      "                <div class="; dq; "timeline-month"; dq; ">"; monthName; "</div>"; nl;
      "                <div class="; dq; "timeline-dot"; dq; "></div>"; nl;
      "                <div class="; dq; "timeline-content"; dq; ">"; nl;
      "                    <div class="; dq; "timeline-photos"; dq; ">"; nl;
      "                        "; photosHTML; nl;
      "                    </div>"; nl;
      "                </div>"; nl;
      "            </div>"; nl;
      "        " ].

(** The read [o[n]] for a number [n]: the property whose key is the text of
    [n].  [show] gives the text of a key of the dictionary. *)
Fixpoint readKey {K A : Type} (show : K -> string) (o : Dict K A) (n : Number) : option A :=
  match o with
  | [] => None
  | (k, v) :: rest =>
      if String.eqb (show k) (toString n) then Some v else readKey show rest n
  end.

Definition monthKey (m : nat) : string := decimal (N.of_nat m).

(** [Object.keys(months).map(m => parseInt(m, 10)).sort((a, b) => a - b)].
    The language lists keys of this kind in ascending order, the dictionary
    in the order of their first use.  The keys being distinct numbers, the
    sort makes the same strictly ascending sequence of either. *)
Definition sortedMonths (months : Months) : list Number :=
  sort sub (map (fun m => parseInt10 (monthKey m)) (map fst months)).

(** [monthsHTML] after the loop of [generateTimelineYearHTML]; a month
    without a property [months[month]] hands [undefined] to
    [generateTimelineMonthHTML], where [items.map] throws. *)
Fixpoint monthsHTMLFrom (index : nat) (months : Months) (sorted : list Number)
  : Completion string :=
  match sorted with
  | [] => Normal EmptyString
  | month :: rest =>
      match readKey monthKey months month with
      | None => Throw TypeError
      | Some items =>
          match monthsHTMLFrom (S index) months rest with
          | Throw e => Throw e
          | Normal html => Normal (generateTimelineMonthHTML month items index ++ html)%string
          end
      end
  end.

Definition generateTimelineYearHTML (year : Number) (months : Months) : Completion string :=
  match monthsHTMLFrom 0 months (sortedMonths months) with
  | Throw e => Throw e
  | Normal monthsHTML =>
      Normal (text [
      nl;
      "            <div class="; dq; "timeline-year-section"; dq; ">"; nl;
      "                <div class="; dq; "timeline-year"; dq; " data-aos="; dq; "fade-up"; dq;
        " data-aos-duration="; dq; "300"; dq; ">"; toString year; "</div>"; nl;
      "                <div class="; dq; "timeline-line"; dq; ">"; nl;
      "                    "; monthsHTML; nl;
      "                </div>"; nl;
      "            </div>"; nl;
      "        " ])
  end.

(** [Object.keys(grouped).map(y => parseInt(y, 10)).sort((a, b) => a - b)];
    the remark on the order of the keys holds here as well. *)
Definition sortedYears (grouped : Timeline) : list Number :=
  sort sub (map (fun y => parseInt10 (toString y)) (map fst grouped)).

(** [yearsHTML] after the loop of [generateTimelineHTML]; a year without a
    property [grouped[year]] hands [undefined] to [generateTimelineYearHTML],
    where [Object.keys] throws. *)
Fixpoint yearsHTMLOf (grouped : Timeline) (sorted : list Number) : Completion string :=
  match sorted with
  | [] => Normal EmptyString
  | year :: rest =>
      match readKey toString grouped year with
      | None => Throw TypeError
      | Some months =>
          match generateTimelineYearHTML year months with
          | Throw e => Throw e
          | Normal html =>
              match yearsHTMLOf grouped rest with
              | Throw e => Throw e
              | Normal htmls => Normal (html ++ htmls)%string
              end
          end
      end
  end.

Definition generateTimelineHTML (grouped : Timeline) : Completion string :=
  let sortedYears := sortedYears grouped in
  match sortedYears with
  | [] => Normal EmptyString
  | _ =>
      match yearsHTMLOf grouped sortedYears with
      | Throw e => Throw e
      | Normal yearsHTML =>
          Normal (text [
      nl;
      "            <div class="; dq; "row"; dq; " style="; dq; "margin-top: 40px;"; dq; ">";
        nl;
      "                <div class="; dq; "col-lg-12"; dq; " id="; dq; "timeline"; dq; ">"; nl;
      "                    <div class="; dq; "section-title"; dq; " style="; dq;
        "margin-bottom:20px"; dq; " data-aos="; dq; "fade-up"; dq; " data-aos-duration="; dq;
        "300"; dq; ">"; nl;
      "                        <h2>Timeline</h2>"; nl;
      "                    </div>"; nl;
      "                    <p class="; dq; "gallery-section-desc"; dq; " data-aos="; dq;
        "fade-up"; dq; " data-aos-duration="; dq; "300"; dq; " data-aos-delay="; dq; "50"; dq;
        ">A chronological journey through our lab's memorable moments.</p>"; nl;
      "                    <div class="; dq; "timeline-container"; dq; ">"; nl;
      "                        "; yearsHTML; nl;
      "                    </div>"; nl;
      "                    <p class="; dq; "back-to-top"; dq; "><a href="; dq; "#top"; dq;
        ">Back to Top</a></p>"; nl;
      "                </div>"; nl;
      "            </div>"; nl;
      "        " ])
      end
  end.

End Render.

Import Render.

(** ** The page *)

Module Page.
Import JS Gallery Render.

(** The image list of the page. *)
Definition GALLERY_IMAGES : list string :=
  [ "conference_01_NeurIPS 2024 - Xinyu, Pingzhi with Prof Ang Li and Students.jpg";
    "conference_02_NeurIPS 2024 - Xinyu, Sukwon, Pingzhi with Prof Xia Hu.jpg";
    "conference_03_NeurIPS 2024 - Xinyu, Pingzhi, Sukwon with Prof Ying Ding and Yuli Wang.jpg";
    "conference_04_Dec 2024 - Pingzhi, Xinyu Presenting Model GLUE at NeurIPS 2024.jpg";
    "conference_05_Dec 2025 - Pingzhi Presenting Mozart at NeurIPS 2025.jpg";
    "conference_06_Dec 2025 - Huaizhi Presenting BetaConform at NeurIPS 2025.jpeg";
    "activity_01_Feb 2025 - Prof Chen Presenting C2R Paper.jpg";
    "lablife_01_Aug 2024 - First PhD Cohort at Welcome Ceremony.jpg";
    "lablife_02_Aug 2024 - First Lab Lunch, Texas Style BBQ.jpg";
    "lablife_03_Oct 2024 - Matcha Cake for September Birthdays.jpg";
    "lablife_04_Oct 2024 - Meetup with NCSU Prof Kaixiong Zhou at Mr Tokyo.jpg";
    "lablife_05_Oct 2024 - Hiking After Meetup.jpg";
    "lablife_06_Nov 2024 - Lab T-Shirt Design Draft.png";
    "lablife_07_Jan 2025 - Lunch at So Hot Pot.jpg";
    "lablife_08_Apr 2025 - Mango Cake for April Birthdays.jpg";
    "lablife_09_Apr 2025 - Hotpot Lab Lunch.jpg";
    "lablife_10_Aug 2025 - Board Games After Lunch.jpg";
    "lablife_11_Sep 2025 - Dinner with HireEZ CEO at Szechuan Village.jpg";
    "lablife_12_Sep 2025 - Close Collaborator Zhen Tan's Job Talk Visit.jpg";
    "lablife_13_Oct 2025 - First Dinner with Zhen Tan and New Students.jpg";
    "lablife_14_Nov 2025 - Group Meeting Dinner.jpg";
    "lablife_15_Dec 2025 - Dinner with Collaborators from China.jpg";
    "campus_01_Old Well - UNC Landmark.jpg";
    "campus_02_Wilson Library.jpg" ].

(** The loop of [initGallery] over the category keys:
    [sectionsHTML += generateSectionHTML(cat, grouped[cat])].  Where
    [grouped] has no property [cat], [generateSectionHTML] reads
    [undefined.length] and throws.  The keys are those of [CATEGORIES], none
    of which is a name of [Object.prototype], so the read is never an
    inherited one; the branch stands for a value that is no array. *)
Fixpoint sectionsOf (grouped : Grouped) (cats : list string) : Completion string :=
  match cats with
  | [] => Normal EmptyString
  | cat :: rest =>
      match get grouped cat with
      | OwnValue items =>
          match generateSectionHTML cat items with
          | Throw e => Throw e
          | Normal html =>
              match sectionsOf grouped rest with
              | Throw e => Throw e
              | Normal htmls => Normal (html ++ htmls)%string
              end
          end
      | Inherited _ => Throw TypeError
      | Undefined => Throw TypeError
      end
  end.

(** The markup [initGallery] assigns to [container.innerHTML]: the sections
    of the categories, then the timeline.  What [initGallery] does with the
    document, fancybox and AOS is outside the embedding. *)
Definition sectionsHTML (grouped : Grouped) (timelineGrouped : Timeline) : Completion string :=
  match sectionsOf grouped (keys CATEGORIES) with
  | Throw e => Throw e
  | Normal sectionsHTML =>
      match generateTimelineHTML timelineGrouped with
      | Throw e => Throw e
      | Normal timelineHTML => Normal (sectionsHTML ++ timelineHTML)%string
      end
  end.

End Page.

Import Page.

(** ** Vocabulary of the statements *)

Definition isNot (sep c : ascii) : bool := negb (Ascii.eqb c sep).

(** Membership in the closed enumeration: an own key of [CATEGORIES]. *)
Definition isCategory (k : string) : bool :=
  match getOwn CATEGORIES k with
  | Some _ => true
  | None => false
  end.

(** Some suffix of [s] is a dot followed by one of the image extensions. *)
Fixpoint hasImageExtension (s : string) : bool :=
  match s with
  | EmptyString => false
  | String c rest =>
      (Ascii.eqb c "." && isImageExtension rest) || hasImageExtension rest
  end.

(** [a <= b]: false as soon as a NaN is involved. *)
Definition le (a b : Number) : bool :=
  match a, b with
  | NaN, _ | _, NaN => false
  | _, _ => negb (lt b a)
  end.

(** The order of the object is a number. *)
Definition numeric (p : ParsedInfo) : Prop := order p <> NaN.

(** Each object of the sequence has an order below or equal to the orders of
    all the objects after it. *)
Definition ascending (l : list ParsedInfo) : Prop :=
  StronglySorted (fun a b => le (order a) (order b) = true) l.

(** The objects [parseFilename] returns over a list, in the order of the
    list. *)
Definition accepted (images : list string) : list ParsedInfo :=
  flat_map (fun filename =>
              match parseFilename filename with
              | Parsed parsed => [parsed]
              | Rejected _ => []
              end) images.

Definition inCategory (cat : string) (p : ParsedInfo) : bool :=
  String.eqb (category p) cat.

(** Every object returned for [images] carries a category of the
    enumeration. *)
Definition categoriesKnown (images : list string) : bool :=
  forallb (fun filename =>
             match parseFilename filename with
             | Parsed parsed => isCategory (category parsed)
             | Rejected _ => true
             end) images.

(** The state of [grouped] after the objects [items] were pushed. *)
Definition bucketsOf (items : list ParsedInfo) : Grouped :=
  map (fun cat => (cat, filter (inCategory cat) items)) (keys CATEGORIES).

(** What a dictionary of containers holds. *)
Definition contents {K V X : Type} (content : V -> list X) (o : Dict K V) : list X :=
  flat_map (fun kv => content (snd kv)) o.

Definition monthEntries (months : Months) : list TimelineEntry :=
  contents (fun items => items) months.

(** Every entry of the timeline, whatever its year and month. *)
Definition timelineEntries (grouped : Timeline) : list TimelineEntry :=
  contents monthEntries grouped.

(** Inputs of the examples. *)
Definition scenario : list string :=
  [ "conference_02_B.jpg"; "conference_01_A.jpg"; "bogus.jpg"; "weird_x_Y.jpg" ].

Definition scenarioA : ParsedInfo :=
  {| filename := "conference_01_A.jpg"; category := "conference";
     order := Fin 1; description := "A" |}.

Definition scenarioB : ParsedInfo :=
  {| filename := "conference_02_B.jpg"; category := "conference";
     order := Fin 2; description := "B" |}.



Definition tied : list string :=
  [ "conference_02_B.jpg"; "lablife_01_X.jpg"; "conference_01_A.jpg"; "conference_02_C.jpg" ].

Definition mixed : list string :=
  [ "campus_02_Wilson Library.jpg"; "lablife_01_Aug 2024 - First Lab Lunch.jpg" ].

Definition wilson : ParsedInfo :=
  {| filename := "campus_02_Wilson Library.jpg"; category := "campus";
     order := Fin 2; description := "Wilson Library" |}.

(** *** Vocabulary of the further properties *)

(** The entries [groupByYearMonth] makes over a list, in the order of the
    list: one for each filename that is parsed and whose description gives a
    date. *)
Definition dated (images : list string) : list TimelineEntry :=
  flat_map (fun filename =>
              match parseFilename filename with
              | Rejected _ => []
              | Parsed parsed =>
                  match parseDateFromDescription (description parsed) with
                  | None => []
                  | Some dateInfo => [ {| parsed := parsed; dateInfo := dateInfo |} ]
                  end
              end) images.

(** [grouped[y][m]], read as the empty sequence where a key is missing. *)
Definition bucket (grouped : Timeline) (y : Number) (m : nat) : list TimelineEntry :=
  match lookup Number_eqb grouped y with
  | None => []
  | Some months =>
      match lookup Nat.eqb months m with
      | None => []
      | Some items => items
      end
  end.

Definition inMonth (y : Number) (m : nat) (e : TimelineEntry) : bool :=
  Number_eqb (year (dateInfo e)) y && Nat.eqb (month (dateInfo e)) m.

Definition constructorNames : list string :=
  [ "lablife_01_Lunch.jpg"; "Constructor_7_Old Well.png" ].

(** A sequence read under a key, empty where the key is missing. *)
Definition orEmpty {A : Type} (o : option (list A)) : list A :=
  match o with
  | Some l => l
  | None => []
  end.

(** The string is empty or starts with a character outside the class. *)
Definition startsOutside (p : ascii -> bool) (s : string) : bool :=
  match s with
  | EmptyString => true
  | String c _ => negb (p c)
  end.

(** What the group [(.+)] accepts: a text that is not empty and holds no line
    terminator. *)
Definition eventGroup (g : string) : bool :=
  negb (String.eqb g "") && allChars (fun c => negb (isLineTerminator c)) g.

(** The date of the entry is the one read from its description. *)
Definition fromDescription (e : TimelineEntry) : Prop :=
  parseDateFromDescription (description (parsed e)) = Some (dateInfo e).

(** Every year of the dictionary has a month, every month has an entry, and
    every entry stands under the year and the month of its own date. *)
Definition wellKeyed (grouped : Timeline) : Prop :=
  forall y months,
    In (y, months) grouped ->
    months <> [] /\
    forall m items,
      In (m, items) months ->
      items <> [] /\
      forall e, In e items ->
                year (dateInfo e) = y /\ month (dateInfo e) = m /\ fromDescription e.

(** No key stands twice, among the years and among the months of a year. *)
Definition uniqueKeys (grouped : Timeline) : Prop :=
  NoDup (map fst grouped) /\
  Forall (fun ym => NoDup (map fst (snd ym))) grouped.

(** Strictly ascending numbers. *)
Definition increasing (l : list Number) : Prop :=
  StronglySorted (fun a b => lt a b = true) l.

Definition ofNat (n : nat) : Number := Fin (Z.of_nat n).

(** The link of the category at place [i] of the configuration, if the
    sequence of that category is not empty. *)
Definition linkIf (items : list ParsedInfo) (configs : Obj Config.t) (i : nat) : list string :=
  match items, nth_error configs i with
  | _ :: _, Some (_, config) => [categoryLink config]
  | _, _ => []
  end.

(** A text within another. *)
Definition occursIn (piece whole : string) : Prop :=
  exists before after, whole = (before ++ piece ++ after)%string.

(** The view the category sections are made of, for the list [tied]. *)
Definition tiedView : Grouped :=
  [ ("conference",
     [ {| filename := "conference_01_A.jpg"; category := "conference";
          order := Fin 1; description := "A" |};
       {| filename := "conference_02_B.jpg"; category := "conference";
          order := Fin 2; description := "B" |};
       {| filename := "conference_02_C.jpg"; category := "conference";
          order := Fin 2; description := "C" |} ]);
    ("activity", []);
    ("lablife",
     [ {| filename := "lablife_01_X.jpg"; category := "lablife";
          order := Fin 1; description := "X" |} ]);
    ("campus", []) ].

Definition lunch : TimelineEntry :=
  {| parsed := {| filename := "lablife_01_Aug 2024 - First Lab Lunch.jpg";
                  category := "lablife"; order := Fin 1;
                  description := "Aug 2024 - First Lab Lunch" |};
     dateInfo := {| year := Fin 2024; month := 7; monthName := "Aug";
                    event := "First Lab Lunch" |} |}.

Definition tiedX : ParsedInfo :=
  {| filename := "lablife_01_X.jpg"; category := "lablife";
     order := Fin 1; description := "X" |}.

Ltac member := repeat first [left; reflexivity | right].

(** ** Facts about the runtime *)

Section Strings.

Lemma append_assoc (a b c : string) : ((a ++ b) ++ c = a ++ (b ++ c))%string.
Proof. induction a as [|x a IH]; simpl; [reflexivity | now rewrite IH]. Qed.

Lemma allChars_append (p : ascii -> bool) (a b : string) :
  allChars p (a ++ b)%string = allChars p a && allChars p b.
Proof.
  induction a as [|x a IH]; simpl; [reflexivity|].
  now rewrite IH, andb_assoc.
Qed.

Lemma split_not_nil (sep : ascii) (s : string) : split sep s <> [].
Proof.
  destruct s as [|c s]; simpl; [discriminate|].
  destruct (Ascii.eqb c sep); [discriminate|].
  destruct (split sep s); discriminate.
Qed.

(** No segment of a split holds the separator. *)
Lemma split_segments (sep : ascii) (s : string) :
  Forall (fun seg => allChars (isNot sep) seg = true) (split sep s).
Proof.
  induction s as [|c s IH]; simpl.
  - repeat constructor.
  - destruct (Ascii.eqb c sep) eqn:E.
    + constructor; [reflexivity | exact IH].
    + destruct (split sep s) as [|seg segs].
      * constructor; [|constructor]. simpl. unfold isNot. now rewrite E.
      * inversion IH; subst. constructor; [|assumption].
        simpl. unfold isNot at 1. rewrite E. simpl. assumption.
Qed.

(** A text without the separator, then the separator: the text is the
    first segment. *)
Lemma split_append (sep : ascii) (a b : string) :
  allChars (isNot sep) a = true ->
  split sep (a ++ String sep b)%string = a :: split sep b.
Proof.
  induction a as [|c a IH]; simpl; intros H.
  - now rewrite Ascii.eqb_refl.
  - apply andb_prop in H as [Hc Ha]. unfold isNot in Hc.
    apply negb_true_iff in Hc. rewrite Hc, (IH Ha). reflexivity.
Qed.

(** [join] undoes [split]. *)
Lemma join_split (sep : ascii) (s : string) :
  join (String sep EmptyString) (split sep s) = s.
Proof.
  induction s as [|c s IH]; simpl; [reflexivity|].
  destruct (Ascii.eqb_spec c sep) as [->|Hne].
  - pose proof (split_not_nil sep s) as Hnil.
    destruct (split sep s) as [|seg segs]; [contradiction|].
    simpl. simpl in IH. now rewrite IH.
  - pose proof (split_not_nil sep s) as Hnil.
    destruct (split sep s) as [|seg segs]; [contradiction|].
    destruct segs as [|seg' segs]; simpl in *; now rewrite <- IH.
Qed.

Lemma toLowerChar_not_upper (c : ascii) : isUpperAZ (toLowerChar c) = false.
Proof. destruct c as [[] [] [] [] [] [] [] []]; reflexivity. Qed.

Lemma toLowerChar_underscore (c : ascii) :
  isNot "_" c = true -> isNot "_" (toLowerChar c) = true.
Proof. destruct c as [[] [] [] [] [] [] [] []]; vm_compute; trivial. Qed.

Lemma toLowerCase_not_upper (s : string) :
  allChars (fun c => negb (isUpperAZ c)) (toLowerCase s) = true.
Proof.
  induction s as [|c s IH]; simpl; [reflexivity|].
  now rewrite toLowerChar_not_upper, IH.
Qed.

Lemma toLowerCase_underscore (s : string) :
  allChars (isNot "_") s = true -> allChars (isNot "_") (toLowerCase s) = true.
Proof.
  induction s as [|c s IH]; simpl; [trivial|].
  intros H. apply andb_prop in H as [Hc Hs].
  now rewrite (toLowerChar_underscore c Hc), (IH Hs).
Qed.

Lemma toLowerCase_length (s : string) :
  String.length (toLowerCase s) = String.length s.
Proof. induction s; simpl; congruence. Qed.

(** Case folding never produces a dot out of another character. *)
Lemma eqIgnoreCase_dot (a b : ascii) :
  eqIgnoreCase a b = true -> isNot "." a = true -> isNot "." b = true.
Proof.
  unfold isNot. destruct (Ascii.eqb_spec b ".") as [->|]; [|reflexivity].
  destruct a as [[] [] [] [] [] [] [] []]; vm_compute; trivial.
Qed.

Lemma equalsIgnoreCase_dot (p s : string) :
  equalsIgnoreCase p s = true ->
  allChars (isNot ".") p = true -> allChars (isNot ".") s = true.
Proof.
  revert s. induction p as [|a p IH]; intros [|b s]; simpl; try discriminate; trivial.
  intros H Hp. apply andb_prop in H as [Hab H]. apply andb_prop in Hp as [Ha Hp].
  now rewrite (eqIgnoreCase_dot a b Hab Ha), (IH s H Hp).
Qed.

End Strings.

(** *** Names inherited from [Object.prototype] *)

Section Prototype.

(** [constructor] is the one inherited name that is in lower case and free
    of underscores, that is, the one a lower-cased segment can be. *)
Lemma inherited_segment (k : string) :
  allChars (isNot "_") k = true ->
  allChars (fun c => negb (isUpperAZ c)) k = true ->
  inherited k = true -> k = "constructor".
Proof.
  intros Hu Hl Hin. unfold inherited, ObjectPrototype in Hin. simpl in Hin.
  repeat (apply orb_prop in Hin as [Hin|Hin];
          [apply String.eqb_eq in Hin; subst k;
           first [reflexivity | discriminate Hu | discriminate Hl]|]).
  discriminate.
Qed.

Lemma inherited_three_letters (k : string) :
  String.length k = 3 -> inherited k = false.
Proof.
  intros Hlen. destruct (inherited k) eqn:Hin; [|reflexivity].
  unfold inherited, ObjectPrototype in Hin. simpl in Hin.
  repeat (apply orb_prop in Hin as [Hin|Hin];
          [apply String.eqb_eq in Hin; subst k; discriminate Hlen|]).
  discriminate.
Qed.

End Prototype.

(** ** The filename parser *)

Section ParseFilename.

Lemma isImageExtension_no_dot (ext : string) :
  isImageExtension ext = true -> allChars (isNot ".") ext = true.
Proof.
  unfold isImageExtension, IMAGE_EXTENSIONS. cbn [existsb]. intros H.
  repeat (apply orb_prop in H as [H|H];
          [exact (equalsIgnoreCase_dot _ _ H eq_refl)|]).
  discriminate.
Qed.

Lemma hasImageExtension_spec (s : string) :
  hasImageExtension s = true <->
  exists base ext, s = (base ++ String "." ext)%string /\ isImageExtension ext = true.
Proof.
  split.
  - induction s as [|c s IH]; simpl; [discriminate|].
    intros H. apply orb_prop in H as [H|H].
    + apply andb_prop in H as [Hc Hext]. apply Ascii.eqb_eq in Hc. subst c.
      now exists EmptyString, s.
    + destruct (IH H) as (base & ext & -> & Hext).
      now exists (String c base), ext.
  - intros (base & ext & -> & Hext).
    induction base as [|c base IH]; simpl.
    + now rewrite Hext.
    + rewrite IH. apply orb_true_r.
Qed.

(** A recognised extension at the end is what the replacement removes, and
    nothing more. *)
Lemma removeExtension_append (base ext : string) :
  isImageExtension ext = true ->
  removeExtension (base ++ String "." ext) = base.
Proof.
  intros Hext. induction base as [|c base IH]; simpl.
  - now rewrite Hext.
  - destruct (isImageExtension (base ++ String "." ext)) eqn:E.
    + apply isImageExtension_no_dot in E.
      rewrite allChars_append in E. simpl in E.
      rewrite andb_false_r in E. discriminate.
    + rewrite andb_false_r. now rewrite IH.
Qed.


Lemma nth_split_underscore (n : nat) (s : string) :
  allChars (isNot "_") (nth n (split "_" s) "") = true.
Proof.
  pose proof (split_segments "_" s) as H.
  revert n. induction H as [|seg segs Hseg _ IH]; intros [|n]; simpl; auto.
Qed.

(** Outside the enumeration, the lower-cased first segment passes the test
    [!CATEGORIES[category]] in one case only: when it is [constructor]. *)
Lemma unknown_category_rejected (filename : string) :
  let parts := split "_" (removeExtension filename) in
  let cat := toLowerCase (nth 0 parts "") in
  3 <= List.length parts ->
  isCategory cat = false ->
  cat <> "constructor" ->
  parseFilename filename = Rejected (UnknownCategory cat filename).
Proof.
  intros parts cat Hlen Hcat Hne.
  unfold parseFilename, parseName. fold parts. fold cat.
  destruct (Nat.ltb_spec (List.length parts) 3) as [Hlt|_]; [lia|].
  unfold isCategory in Hcat. unfold get.
  destruct (getOwn CATEGORIES cat); [discriminate|].
  destruct (inherited cat) eqn:Hin; [|reflexivity].
  exfalso. apply Hne. apply inherited_segment; [| |assumption].
  - apply toLowerCase_underscore, nth_split_underscore.
  - apply toLowerCase_not_upper.
Qed.

(** C2.  A filename that, once the extension is removed, splits on the
    underscore into fewer than three segments is rejected: [parseFilename]
    returns [null], with the warning for a malformed name. *)
Theorem parseFilename_malformed (filename : string) :
  List.length (split "_" (removeExtension filename)) < 3 ->
  parseFilename filename = Rejected (InvalidFilenameFormat filename).
Proof.
  intros H. unfold parseFilename, parseName.
  now destruct (Nat.ltb_spec (List.length (split "_" (removeExtension filename))) 3); [|lia].
Qed.

Lemma parseFilename_malformed_witness :
  List.length (split "_" (removeExtension "bogus.jpg")) < 3 /\
  parseFilename "bogus.jpg" = Rejected (InvalidFilenameFormat "bogus.jpg").
Proof.
  assert (H : List.length (split "_" (removeExtension "bogus.jpg")) < 3)
    by (vm_compute; lia).
  split; [exact H | exact (parseFilename_malformed "bogus.jpg" H)].
Defined.

(** C3.  The first segment [constructor] is no category of the enumeration,
    and yet [parseFilename] returns an object for it: the test
    [!CATEGORIES[category]] finds the function that every object inherits
    under that name. *)
Theorem parseFilename_constructor :
  isCategory (toLowerCase "constructor") = false /\
  parseFilename "constructor_01_Photo.jpg" =
    Parsed {| filename := "constructor_01_Photo.jpg"; category := "constructor";
              order := Fin 1; description := "Photo" |}.
Proof. split; reflexivity. Qed.

Lemma parseName_description (filename cat ord desc : string) :
  allChars (isNot "_") cat = true ->
  allChars (isNot "_") ord = true ->
  isCategory (toLowerCase cat) = true ->
  parseName filename (cat ++ "_" ++ ord ++ "_" ++ desc) =
    Parsed {| filename := filename; category := toLowerCase cat;
              order := parseInt10 ord; description := desc |}.
Proof.
  intros Hcat Hord Hin. unfold parseName. simpl append.
  rewrite (split_append "_" cat _ Hcat), (split_append "_" ord _ Hord).
  pose proof (split_not_nil "_" desc) as Hnil.
  pose proof (join_split "_" desc) as Hjoin.
  destruct (split "_" desc) as [|seg segs] eqn:E; [contradiction|].
  cbn [List.length Nat.ltb Nat.leb nth slice skipn].
  rewrite Hjoin.
  unfold isCategory in Hin. unfold get.
  destruct (getOwn CATEGORIES (toLowerCase cat)); [reflexivity | discriminate].
Qed.

(** The same with an image extension behind the description. *)
Lemma parseFilename_description_ext (cat ord desc ext : string) :
  allChars (isNot "_") cat = true ->
  allChars (isNot "_") ord = true ->
  isCategory (toLowerCase cat) = true ->
  isImageExtension ext = true ->
  let filename := (cat ++ "_" ++ ord ++ "_" ++ desc ++ "." ++ ext)%string in
  parseFilename filename =
    Parsed {| filename := filename; category := toLowerCase cat;
              order := parseInt10 ord; description := desc |}.
Proof.
  intros Hcat Hord Hin Hext filename. unfold parseFilename.
  replace (removeExtension filename) with (cat ++ "_" ++ ord ++ "_" ++ desc)%string.
  - now apply parseName_description.
  - unfold filename.
    change ("." ++ ext)%string with (String "." ext).
    rewrite <- (removeExtension_append (cat ++ "_" ++ ord ++ "_" ++ desc) ext Hext).
    now rewrite !append_assoc.
Qed.

(** C6.  When the name without its extension is [cat_ord_desc], with no
    underscore inside [cat] and [ord] and with [cat] a category, the parsed
    description is [desc] itself, whatever underscores it holds. *)
Theorem parseFilename_description (filename cat ord desc : string) :
  removeExtension filename = (cat ++ "_" ++ ord ++ "_" ++ desc)%string ->
  allChars (isNot "_") cat = true ->
  allChars (isNot "_") ord = true ->
  isCategory (toLowerCase cat) = true ->
  parseFilename filename =
    Parsed {| filename := filename; category := toLowerCase cat;
              order := parseInt10 ord; description := desc |}.
Proof.
  intros Hname Hcat Hord Hin. unfold parseFilename. rewrite Hname.
  now apply parseName_description.
Qed.

Lemma parseFilename_description_witness :
  parseFilename "lablife_12_Sep_2025_-_Dinner" =
    Parsed {| filename := "lablife_12_Sep_2025_-_Dinner"; category := "lablife";
              order := Fin 12; description := "Sep_2025_-_Dinner" |}.
Proof.
  exact (parseFilename_description
           "lablife_12_Sep_2025_-_Dinner" "lablife" "12" "Sep_2025_-_Dinner"
           eq_refl eq_refl eq_refl eq_refl).
Defined.



End ParseFilename.

(** ** Numbers and the sort *)

Section Numbers.

Lemma Number_eqb_eq (a b : Number) : Number_eqb a b = true <-> a = b.
Proof.
  destruct a as [|x|s], b as [|y|t]; simpl; split; intros H;
    try discriminate; try reflexivity.
  - apply Z.eqb_eq in H. now subst.
  - inversion H. apply Z.eqb_refl.
  - apply Bool.eqb_prop in H. now subst.
  - inversion H. apply Bool.eqb_reflx.
Qed.

(** Rounding keeps the sign. *)
Lemma ofInteger_isPositive (z : Z) : isPositive (ofInteger z) = (0 <? z)%Z.
Proof.
  unfold ofInteger.
  destruct (Z.ltb_spec (Z.abs z) (2 ^ 53)) as [Hsmall|Hbig]; [reflexivity|].
  set (a := Z.abs z) in *.
  set (e := (Z.log2 a - 52)%Z).
  set (q := (a / 2 ^ e)%Z).
  set (r := (a mod 2 ^ e)%Z).
  match goal with
  | |- context [if ?c then (q + 1)%Z else q] =>
      set (q' := if c then (q + 1)%Z else q)
  end.
  assert (Hpos : (0 < a)%Z) by (pose proof (Z.pow_pos_nonneg 2 53); lia).
  assert (He : (1 <= e)%Z).
  { unfold e. assert (53 <= Z.log2 a)%Z by (apply Z.log2_le_pow2; lia). lia. }
  assert (Hpow : (0 < 2 ^ e)%Z) by (apply Z.pow_pos_nonneg; lia).
  assert (Hle : (2 ^ e <= a)%Z).
  { transitivity (2 ^ Z.log2 a)%Z.
    - apply Z.pow_le_mono_r; unfold e; lia.
    - apply Z.log2_spec; assumption. }
  assert (Hq : (0 < q)%Z) by (unfold q; apply Z.div_str_pos; lia).
  assert (Hq' : (0 < q')%Z).
  { unfold q'. match goal with |- context [if ?c then _ else _] => destruct c end; lia. }
  assert (Hm : (0 < q' * 2 ^ e)%Z) by (apply Z.mul_pos_pos; assumption).
  destruct (2 ^ 1024 <=? q' * 2 ^ e)%Z; simpl.
  - destruct (Z.ltb_spec z 0), (Z.ltb_spec 0 z); simpl; try reflexivity; lia.
  - destruct (Z.ltb_spec 0 z) as [Hz|Hz].
    + apply Z.ltb_lt. rewrite Z.sgn_pos by assumption. lia.
    + apply Z.ltb_ge. assert (z < 0)%Z by lia.
      rewrite Z.sgn_neg by assumption. lia.
Qed.

(** The comparator is above zero exactly when its second argument is the
    smaller number. *)
Lemma sub_isPositive (a b : Number) : isPositive (sub a b) = lt b a.
Proof.
  destruct a as [|x|[]], b as [|y|[]]; simpl; try reflexivity.
  rewrite ofInteger_isPositive.
  destruct (Z.ltb_spec 0 (x - y)), (Z.ltb_spec y x); try reflexivity; lia.
Qed.

Lemma le_trans (a b c : Number) : le a b = true -> le b c = true -> le a c = true.
Proof.
  destruct a as [|x|[]], b as [|y|[]], c as [|z|[]]; simpl;
    try discriminate; try reflexivity.
  rewrite !negb_true_iff, !Z.ltb_ge. lia.
Qed.

Lemma not_lt_le (a b : Number) : a <> NaN -> b <> NaN -> lt b a = false -> le a b = true.
Proof.
  destruct a as [|x|[]], b as [|y|[]]; simpl; intros Ha Hb H;
    try congruence; now rewrite H.
Qed.

Lemma lt_le (a b : Number) : lt a b = true -> le a b = true.
Proof.
  destruct a as [|x|[]], b as [|y|[]]; simpl; try discriminate; try reflexivity.
  rewrite negb_true_iff, Z.ltb_lt, Z.ltb_ge. lia.
Qed.


End Numbers.

Section SortFacts.
Context {A : Type} (comparefn : A -> A -> Number).

Lemma insert_perm (x : A) (l : list A) : Permutation (x :: l) (insert comparefn x l).
Proof.
  induction l as [|y l IH]; simpl; [reflexivity|].
  destruct (isPositive (comparefn x y)); [|reflexivity].
  rewrite perm_swap. now constructor.
Qed.

Lemma sort_perm (l : list A) : Permutation l (sort comparefn l).
Proof.
  induction l as [|x l IH]; simpl; [constructor|].
  rewrite <- insert_perm. now constructor.
Qed.

(** Stability.  Elements of a class [p] inside which no comparison comes
    out above zero stay in the order they had. *)
Section Stable.
Context (p : A -> bool).
Hypothesis tie : forall x y, p x = true -> p y = true ->
                             isPositive (comparefn x y) = false.


End Stable.

End SortFacts.

Section SortByOrder.

Lemma byOrder_isPositive (x y : ParsedInfo) :
  isPositive (byOrder x y) = lt (order y) (order x).
Proof. apply sub_isPositive. Qed.

Lemma insert_ascending (x : ParsedInfo) (l : list ParsedInfo) :
  numeric x -> Forall numeric l -> ascending l -> ascending (insert byOrder x l).
Proof.
  intros Hx Hl Hs. induction Hs as [|y l Hs IH Hy]; simpl.
  - repeat constructor.
  - inversion Hl as [|? ? Hny Hnl]; subst.
    rewrite byOrder_isPositive. destruct (lt (order y) (order x)) eqn:E.
    + constructor; [exact (IH Hnl)|].
      apply (Permutation_Forall (insert_perm byOrder x l)).
      constructor; [exact (lt_le _ _ E) | exact Hy].
    + assert (Hxy : le (order x) (order y) = true) by (now apply not_lt_le).
      constructor; [now constructor|].
      constructor; [exact Hxy|].
      eapply Forall_impl; [|exact Hy].
      intros z Hz. exact (le_trans _ _ _ Hxy Hz).
Qed.

Lemma sort_ascending (l : list ParsedInfo) :
  Forall numeric l -> ascending (sort byOrder l).
Proof.
  induction 1 as [|x l Hx Hl IH]; simpl; [constructor|].
  apply insert_ascending; [assumption | | assumption].
  exact (Permutation_Forall (sort_perm byOrder l) Hl).
Qed.


End SortByOrder.

(** ** The category view *)

Section GroupByCategory.

Lemma initGrouped_bucketsOf : initGrouped = bucketsOf [].
Proof. reflexivity. Qed.

Lemma inCategory_sym (cat : string) (p : ParsedInfo) :
  inCategory cat p = String.eqb cat (category p).
Proof. apply String.eqb_sym. Qed.

Lemma pushParsed_bucketsOf (items : list ParsedInfo) (p : ParsedInfo) :
  pushParsed (bucketsOf items) p =
  if isCategory (category p) then Normal (bucketsOf (items ++ [p]))
  else Throw TypeError.
Proof.
  unfold pushParsed, get, isCategory, bucketsOf, getOwn, setOwn.
  cbn [keys CATEGORIES map fst lookup update].
  rewrite !filter_app. cbn [filter]. rewrite !inCategory_sym.
  repeat match goal with
         | |- context [String.eqb ?a (category p)] =>
             let E := fresh "E" in
             destruct (String.eqb_spec a (category p)) as [E|E];
             [try rewrite <- E; cbn; rewrite ?app_nil_r; reflexivity|]
         end.
  destruct (inherited (category p)); reflexivity.
Qed.

Lemma forEach_bucketsOf (images : list string) (items : list ParsedInfo) :
  forEach (fun grouped filename =>
             match parseFilename filename with
             | Parsed parsed => pushParsed grouped parsed
             | Rejected _ => Normal grouped
             end) images (bucketsOf items) =
  if categoriesKnown images then Normal (bucketsOf (items ++ accepted images))
  else Throw TypeError.
Proof.
  revert items. induction images as [|f images IH]; intros items; simpl.
  - now rewrite app_nil_r.
  - destruct (parseFilename f) as [p|w]; simpl.
    + rewrite pushParsed_bucketsOf.
      destruct (isCategory (category p)); simpl; [|reflexivity].
      rewrite IH, <- app_assoc. reflexivity.
    + apply IH.
Qed.

(** What [groupByCategory] computes: it throws as soon as an object with a
    category outside the enumeration is to be pushed, and otherwise returns,
    for each category in the order of [CATEGORIES], the sorted objects of
    that category. *)
Lemma groupByCategory_eq (images : list string) :
  groupByCategory images =
  if categoriesKnown images
  then Normal (map (fun cat => (cat, sort byOrder (filter (inCategory cat) (accepted images))))
                   (keys CATEGORIES))
  else Throw TypeError.
Proof.
  unfold groupByCategory. rewrite initGrouped_bucketsOf, forEach_bucketsOf.
  destruct (categoriesKnown images); reflexivity.
Qed.


Lemma getOwn_grouped_key (images : list string) (cat : string) :
  In cat (keys CATEGORIES) ->
  getOwn (map (fun cat => (cat, sort byOrder (filter (inCategory cat) (accepted images))))
              (keys CATEGORIES)) cat =
  Some (sort byOrder (filter (inCategory cat) (accepted images))).
Proof.
  cbn [keys CATEGORIES map fst In].
  intros [<-|[<-|[<-|[<-|[]]]]]; reflexivity.
Qed.

Lemma isCategory_key (cat : string) :
  isCategory cat = true <-> In cat (keys CATEGORIES).
Proof.
  unfold isCategory, getOwn. cbn [keys CATEGORIES map fst lookup In]. split.
  - repeat match goal with
           | |- context [String.eqb ?a cat] =>
               let E := fresh "E" in
               destruct (String.eqb_spec a cat) as [E|E]; [tauto|]
           end.
    discriminate.
  - intros [<-|[<-|[<-|[<-|[]]]]]; reflexivity.
Qed.

Lemma accepted_In (images : list string) (p : ParsedInfo) :
  In p (accepted images) <->
  exists filename, In filename images /\ parseFilename filename = Parsed p.
Proof.
  unfold accepted. rewrite in_flat_map. split.
  - intros (f & Hf & Hp). exists f. split; [assumption|].
    destruct (parseFilename f) as [q|w]; simpl in Hp; [|contradiction].
    destruct Hp as [->|[]]. reflexivity.
  - intros (f & Hf & Hp). exists f. split; [assumption|].
    rewrite Hp. now left.
Qed.

Lemma categoriesKnown_accepted (images : list string) :
  categoriesKnown images = true ->
  Forall (fun p => isCategory (category p) = true) (accepted images).
Proof.
  intros H. apply Forall_forall. intros p Hp.
  apply accepted_In in Hp as (f & Hf & Hp).
  unfold categoriesKnown in H. rewrite forallb_forall in H.
  specialize (H f Hf). now rewrite Hp in H.
Qed.

Lemma filter_none {A : Type} (f : A -> bool) (l : list A) :
  (forall x, In x l -> f x = false) -> filter f l = [].
Proof.
  induction l as [|x l IH]; simpl; intros H; [reflexivity|].
  rewrite (H x (or_introl eq_refl)). apply IH. intros y Hy. apply H. now right.
Qed.

Lemma groupByCategory_scenario_value :
  groupByCategory scenario =
  Normal [ ("conference", [scenarioA; scenarioB]); ("activity", []);
           ("lablife", []); ("campus", []) ].
Proof. vm_compute. reflexivity. Qed.

(** C1, as stated, fails: no sequence of the result holds an object for
    [weird_x_Y.jpg]. *)
Lemma groupByCategory_scenario_without_weird :
  ~ exists g cat items p,
      groupByCategory scenario = Normal g /\
      getOwn g cat = Some items /\
      In p items /\
      filename p = "weird_x_Y.jpg".
Proof.
  intros (g & cat & items & p & Hg & Hget & Hin & Hname).
  rewrite groupByCategory_scenario_value in Hg. injection Hg as <-.
  unfold getOwn in Hget. cbn [lookup] in Hget.
  repeat match type of Hget with
         | context [String.eqb ?a cat] => destruct (String.eqb a cat)
         end;
    try discriminate; injection Hget as <-; simpl in Hin;
    repeat (destruct Hin as [<-|Hin]; [discriminate Hname|]); assumption.
Qed.

(** C1, amended.  On the scenario the conference sequence is [A, B] (order
    1 before order 2) and the three other sequences are empty;
    [bogus.jpg] is rejected as malformed and [weird_x_Y.jpg] is rejected
    as well, because [weird] is no category. *)
Theorem groupByCategory_scenario :
  groupByCategory scenario =
    Normal [ ("conference", [scenarioA; scenarioB]); ("activity", []);
             ("lablife", []); ("campus", []) ] /\
  parseFilename "bogus.jpg" = Rejected (InvalidFilenameFormat "bogus.jpg") /\
  parseFilename "weird_x_Y.jpg" = Rejected (UnknownCategory "weird" "weird_x_Y.jpg").
Proof.
  split; [exact groupByCategory_scenario_value|]. split; reflexivity.
Qed.

Lemma groupByCategory_returns (images : list string) :
  (exists g, groupByCategory images = Normal g) <-> categoriesKnown images = true.
Proof.
  rewrite groupByCategory_eq. destruct (categoriesKnown images); split.
  - reflexivity.
  - intros _. eexists. reflexivity.
  - intros [g Hg]. discriminate Hg.
  - discriminate.
Qed.

(** Completeness of the categories, where the function returns.  [grouped]
    starts with every category of the enumeration mapped to the empty
    sequence, and that is the result for the empty list.  For any list on
    which the function returns (the parsed categories are those of the
    enumeration), the result has the four categories as its keys, in the
    order of [CATEGORIES], and a category no filename of the list belongs to
    is mapped to the empty sequence. *)
Theorem groupByCategory_complete :
  initGrouped =
    [ ("conference", []); ("activity", []); ("lablife", []); ("campus", []) ] /\
  groupByCategory [] = Normal initGrouped /\
  forall images,
    categoriesKnown images = true ->
    exists g,
      groupByCategory images = Normal g /\
      keys g = keys CATEGORIES /\
      forall cat,
        In cat (keys CATEGORIES) ->
        (forall filename p,
            In filename images -> parseFilename filename = Parsed p -> category p <> cat) ->
        getOwn g cat = Some [].
Proof.
  split; [reflexivity|]. split; [reflexivity|].
  intros images Hknown. rewrite groupByCategory_eq, Hknown.
  eexists. split; [reflexivity|]. split; [reflexivity|].
  intros cat Hcat Hnone. rewrite (getOwn_grouped_key images cat Hcat).
  rewrite filter_none; [reflexivity|].
  intros p Hp. apply accepted_In in Hp as (f & Hf & Hp).
  unfold inCategory. apply String.eqb_neq. exact (Hnone f p Hf Hp).
Qed.

Lemma groupByCategory_complete_witness :
  exists g,
    groupByCategory [ "conference_01_A.jpg"; "bogus.jpg" ] = Normal g /\
    keys g = keys CATEGORIES /\
    getOwn g "campus" = Some [].
Proof.
  destruct (proj2 (proj2 groupByCategory_complete)
              [ "conference_01_A.jpg"; "bogus.jpg" ] eq_refl)
    as (g & Hg & Hkeys & Hempty).
  exists g. split; [exact Hg|]. split; [exact Hkeys|].
  apply Hempty.
  - simpl. tauto.
  - intros filename p [<-|[<-|[]]]; vm_compute; intros [= <-]; discriminate.
Defined.

(** C7.  The list [constructor_01_Photo.jpg] has no item of any category of
    the enumeration: its one filename is parsed, with a category that is none
    of the four.  The result should then hold the four categories, each
    mapped to the empty sequence; [groupByCategory] throws instead and
    returns no result. *)
Theorem groupByCategory_complete_constructor :
  (exists p,
      parseFilename "constructor_01_Photo.jpg" = Parsed p /\
      forall cat, In cat (keys CATEGORIES) -> category p <> cat) /\
  (forall cat,
      In cat (keys CATEGORIES) ->
      filter (inCategory cat) (accepted [ "constructor_01_Photo.jpg" ]) = []) /\
  groupByCategory [ "constructor_01_Photo.jpg" ] = Throw TypeError /\
  groupByCategory [ "constructor_01_Photo.jpg" ] <> Normal initGrouped.
Proof.
  split; [|split; [|split; [reflexivity | discriminate]]].
  - eexists. split; [reflexivity|].
    cbn [keys CATEGORIES map fst In category].
    intros cat [<-|[<-|[<-|[<-|[]]]]]; discriminate.
  - cbn [keys CATEGORIES map fst In].
    intros cat [<-|[<-|[<-|[<-|[]]]]]; reflexivity.
Qed.

Lemma groupByCategory_nil :
  groupByCategory [] =
  Normal [ ("conference", []); ("activity", []); ("lablife", []); ("campus", []) ].
Proof. reflexivity. Qed.




Lemma groupByCategory_tied :
  groupByCategory tied =
  Normal [ ("conference",
            [ {| filename := "conference_01_A.jpg"; category := "conference";
                 order := Fin 1; description := "A" |};
              {| filename := "conference_02_B.jpg"; category := "conference";
                 order := Fin 2; description := "B" |};
              {| filename := "conference_02_C.jpg"; category := "conference";
                 order := Fin 2; description := "C" |} ]);
           ("activity", []);
           ("lablife",
            [ {| filename := "lablife_01_X.jpg"; category := "lablife";
                 order := Fin 1; description := "X" |} ]);
           ("campus", []) ].
Proof. vm_compute. reflexivity. Qed.

(** C10.  [constructor_01_Photo.jpg] is accepted by [parseFilename] with a
    category that is no key of [grouped]; the read [grouped[category]] then
    finds an inherited function, and [groupByCategory] throws instead of
    returning the view. *)
Theorem groupByCategory_constructor :
  (exists p, parseFilename "constructor_01_Photo.jpg" = Parsed p /\
             isCategory (category p) = false /\
             get initGrouped (category p) = Inherited "constructor") /\
  groupByCategory [ "constructor_01_Photo.jpg" ] = Throw TypeError.
Proof.
  split; [|reflexivity]. eexists. split; [reflexivity|]. split; reflexivity.
Qed.

(** Outside that case the view is a partition of the parsed objects: each is
    in the sequence of its category, in no other, and the sequences hold as
    many objects as were parsed. *)
Lemma bucket_sizes (items : list ParsedInfo) :
  Forall (fun p => isCategory (category p) = true) items ->
  List.length (filter (inCategory "conference") items) +
  List.length (filter (inCategory "activity") items) +
  List.length (filter (inCategory "lablife") items) +
  List.length (filter (inCategory "campus") items) = List.length items.
Proof.
  induction 1 as [|p items Hp _ IH]; [reflexivity|].
  apply isCategory_key in Hp. cbn [keys CATEGORIES map fst In] in Hp.
  cbn [filter]. rewrite !inCategory_sym.
  destruct Hp as [E|[E|[E|[E|[]]]]]; rewrite <- E;
    simpl (String.eqb _ _); cbn [List.length]; lia.
Qed.

(** X5.  On a list whose parsed categories are all of the enumeration,
    [groupByCategory] returns a partition of the parsed objects: each is in
    the sequence of its own category and in no other, and the sequences hold
    together as many objects as were parsed. *)
Lemma groupByCategory_partition (images : list string) :
  categoriesKnown images = true ->
  exists g,
    groupByCategory images = Normal g /\
    (forall p, In p (accepted images) ->
               forall cat, In cat (keys CATEGORIES) ->
               exists items, getOwn g cat = Some items /\
                             (In p items <-> cat = category p)) /\
    List.length (concat (map snd g)) = List.length (accepted images).
Proof.
  intros Hknown. rewrite groupByCategory_eq, Hknown.
  eexists. split; [reflexivity|]. split.
  - intros p Hp cat Hcat. rewrite (getOwn_grouped_key images cat Hcat).
    eexists. split; [reflexivity|].
    rewrite <- (Permutation_in' eq_refl (sort_perm byOrder _)).
    rewrite filter_In. unfold inCategory. rewrite String.eqb_eq.
    intuition congruence.
  - cbn [keys CATEGORIES map fst snd concat].
    rewrite !length_app. cbn [List.length].
    rewrite <- !(Permutation_length (sort_perm byOrder _)).
    rewrite <- (bucket_sizes _ (categoriesKnown_accepted images Hknown)). lia.
Qed.

End GroupByCategory.

(** ** The date heuristic and the timeline view *)

Section Timeline.

Lemma takeExactly_length (n : nat) (p : ascii -> bool) (s taken rest : string) :
  takeExactly n p s = Some (taken, rest) -> String.length taken = n.
Proof.
  revert s taken rest. induction n as [|n IH]; intros s taken rest; simpl.
  - now intros [= <- _].
  - destruct s as [|c s]; [discriminate|].
    destruct (p c); [|discriminate].
    destruct (takeExactly n p s) as [[t r]|] eqn:E; [|discriminate].
    intros [= <- _]. simpl. f_equal. exact (IH _ _ _ E).
Qed.

Lemma matchDate_month_length (description g1 g2 g3 : string) :
  matchDate description = Some (g1, g2, g3) -> String.length g1 = 3.
Proof.
  unfold matchDate.
  destruct (takeExactly 3 isAlpha description) as [[m rest1]|] eqn:E1; [|discriminate].
  destruct (takeWhile isWhiteSpace rest1); [discriminate|].
  destruct (takeExactly 4 isDigit _) as [[y rest2]|]; [|discriminate].
  destruct (dropWhile isWhiteSpace rest2) as [|c rest3]; [discriminate|].
  destruct (Ascii.eqb_spec c "-") as [->|Hc].
  - destruct (matchEvent _ rest3); [|discriminate].
    intros [= <- _ _]. exact (takeExactly_length _ _ _ _ _ E1).
  - destruct c as [[] [] [] [] [] [] [] []]; try discriminate. now elim Hc.
Qed.

(** After a match the month is looked up among the own keys of
    [MONTH_MAP] only, and an abbreviation that is none of them gives
    [null]. *)
Lemma parseDate_unknown_month (description g1 g2 g3 : string) :
  matchDate description = Some (g1, g2, g3) ->
  getOwn MONTH_MAP (toLowerCase g1) = None ->
  parseDateFromDescription description = None.
Proof.
  intros Hm Hown. unfold parseDateFromDescription, get. rewrite Hm, Hown.
  rewrite inherited_three_letters; [reflexivity|].
  rewrite toLowerCase_length. exact (matchDate_month_length _ _ _ _ Hm).
Qed.

Lemma parseDate_known_month (description g1 g2 g3 : string) (m : nat) :
  matchDate description = Some (g1, g2, g3) ->
  getOwn MONTH_MAP (toLowerCase g1) = Some m ->
  parseDateFromDescription description =
    Some {| year := parseInt10 g2; month := m;
            monthName := nth m MONTH_NAMES ""; event := trim g3 |}.
Proof.
  intros Hm Hown. unfold parseDateFromDescription, get. now rewrite Hm, Hown.
Qed.

(** C4.  The three descriptions of the date heuristic: a date is read from
    the first; the second does not match the pattern; the third matches it,
    and is given up because [xyz] is none of the twelve keys [jan] to [dec]
    that [MONTH_MAP] sends to 0 up to 11. *)
Theorem parseDateFromDescription_examples :
  parseDateFromDescription "Aug 2024 - First Lab Lunch" =
    Some {| year := Fin 2024; month := 7; monthName := "Aug";
            event := "First Lab Lunch" |} /\
  (matchDate "2024 Lab Lunch" = None /\
   parseDateFromDescription "2024 Lab Lunch" = None) /\
  (matchDate "Xyz 2024 - Event" = Some ("Xyz", "2024", "Event") /\
   get MONTH_MAP (toLowerCase "Xyz") = Undefined /\
   parseDateFromDescription "Xyz 2024 - Event" = None) /\
  MONTH_MAP =
    combine [ "jan"; "feb"; "mar"; "apr"; "may"; "jun";
              "jul"; "aug"; "sep"; "oct"; "nov"; "dec" ] (seq 0 12).
Proof. repeat split; reflexivity. Qed.

Section Contents.
Context {K V X : Type} (eqb : K -> K -> bool) (content : V -> list X).

Lemma contents_update (o : Dict K V) (k : K) (v : V) (x : X) :
  In x (contents content (update eqb o k v)) ->
  In x (content v) \/ In x (contents content o).
Proof.
  unfold contents. induction o as [|[k' v'] o IH]; simpl.
  - rewrite app_nil_r. now left.
  - destruct (eqb k' k); simpl; rewrite !in_app_iff; [tauto|].
    intros [H|H]; [tauto|]. destruct (IH H); tauto.
Qed.

Lemma contents_lookup (o : Dict K V) (k : K) (v : V) (x : X) :
  lookup eqb o k = Some v -> In x (content v) -> In x (contents content o).
Proof.
  unfold contents. induction o as [|[k' v'] o IH]; simpl; [discriminate|].
  rewrite in_app_iff. destruct (eqb k' k).
  - intros [= ->]. now left.
  - intros H Hx. right. now apply IH.
Qed.
End Contents.

Lemma timelineEntries_lookup (grouped : Timeline) (y : Number) (months : Months)
      (m : nat) (items : list TimelineEntry) (e : TimelineEntry) :
  lookup Number_eqb grouped y = Some months ->
  lookup Nat.eqb months m = Some items ->
  In e items -> In e (timelineEntries grouped).
Proof.
  intros Hy Hm He. eapply contents_lookup; [exact Hy|].
  eapply contents_lookup; [exact Hm | exact He].
Qed.

Lemma addEntry_entries (grouped : Timeline) (entry e : TimelineEntry) :
  In e (timelineEntries (addEntry grouped entry)) ->
  e = entry \/ In e (timelineEntries grouped).
Proof.
  unfold addEntry.
  set (y := year (dateInfo entry)). set (m := month (dateInfo entry)).
  set (grouped1 := match lookup Number_eqb grouped y with
                   | None => update Number_eqb grouped y []
                   | Some _ => grouped
                   end).
  assert (H1 : forall x, In x (timelineEntries grouped1) -> In x (timelineEntries grouped)).
  { intros x. unfold grouped1. destruct (lookup Number_eqb grouped y); [trivial|].
    intros H. apply contents_update in H as [[]|H]. exact H. }
  set (months := match lookup Number_eqb grouped1 y with
                 | Some months => months
                 | None => []
                 end).
  assert (H2 : forall x, In x (monthEntries months) -> In x (timelineEntries grouped)).
  { intros x Hx. apply H1. unfold months in Hx.
    destruct (lookup Number_eqb grouped1 y) as [ms|] eqn:E; [|contradiction].
    exact (contents_lookup _ _ _ _ _ _ E Hx). }
  set (months1 := match lookup Nat.eqb months m with
                  | None => update Nat.eqb months m []
                  | Some _ => months
                  end).
  assert (H3 : forall x, In x (monthEntries months1) -> In x (timelineEntries grouped)).
  { intros x Hx. apply H2. unfold months1 in Hx.
    destruct (lookup Nat.eqb months m); [exact Hx|].
    apply contents_update in Hx as [[]|Hx]. exact Hx. }
  set (items := match lookup Nat.eqb months1 m with
                | Some items => items
                | None => []
                end).
  assert (H4 : forall x, In x items -> In x (timelineEntries grouped)).
  { intros x Hx. apply H3. unfold items in Hx.
    destruct (lookup Nat.eqb months1 m) as [es|] eqn:E; [|contradiction].
    exact (contents_lookup _ _ _ _ _ _ E Hx). }
  intros H. apply contents_update in H as [H|H]; [|right; exact (H1 _ H)].
  apply contents_update in H as [H|H]; [|right; exact (H3 _ H)].
  apply in_app_iff in H as [H|[->|[]]]; [right; exact (H4 _ H) | now left].
Qed.

(** An entry of the timeline comes from a filename of the list that was
    parsed and whose description gave a date. *)
Lemma fold_entries (images : list string) (grouped : Timeline) (e : TimelineEntry) :
  In e (timelineEntries
          (fold_left
             (fun grouped filename =>
                match parseFilename filename with
                | Rejected _ => grouped
                | Parsed parsed =>
                    match parseDateFromDescription (description parsed) with
                    | None => grouped
                    | Some dateInfo =>
                        addEntry grouped {| parsed := parsed; dateInfo := dateInfo |}
                    end
                end) images grouped)) ->
  In e (timelineEntries grouped) \/
  exists name, In name images /\
               parseFilename name = Parsed (parsed e) /\
               parseDateFromDescription (description (parsed e)) = Some (dateInfo e).
Proof.
  revert grouped. induction images as [|f images IH]; intros grouped; simpl; [tauto|].
  intros H. apply IH in H as [H|(name & Hin & Hp & Hd)].
  - destruct (parseFilename f) as [p|w] eqn:Ep; [|tauto].
    destruct (parseDateFromDescription (description p)) as [d|] eqn:Ed; [|tauto].
    apply addEntry_entries in H as [->|H]; [|tauto].
    right. exists f. simpl. tauto.
  - right. exists name. tauto.
Qed.

Lemma groupByYearMonth_entries (images : list string) (e : TimelineEntry) :
  In e (timelineEntries (groupByYearMonth images)) ->
  exists name, In name images /\
               parseFilename name = Parsed (parsed e) /\
               parseDateFromDescription (description (parsed e)) = Some (dateInfo e).
Proof.
  intros H. apply fold_entries in H as [[]|H]. exact H.
Qed.

Lemma parseFilename_filename (name : string) (p : ParsedInfo) :
  parseFilename name = Parsed p -> filename p = name.
Proof.
  unfold parseFilename, parseName.
  destruct (_ <? 3)%nat; [discriminate|].
  destruct (negb _); [discriminate|]. now intros [= <-].
Qed.

(** The two views of an undated object, where the category view is returned.
    An object that was parsed and whose description gives no date is in no
    entry of the timeline view, under no year and no month.  It is among the
    objects handed to the category view, and on a list on which
    [groupByCategory] returns (the parsed categories are those of the
    enumeration) it is in the sequence of its category. *)
Theorem undated_item_views (images : list string) (name : string) (p : ParsedInfo) :
  In name images ->
  parseFilename name = Parsed p ->
  parseDateFromDescription (description p) = None ->
  (forall e, In e (timelineEntries (groupByYearMonth images)) ->
             parsed e <> p /\ filename (parsed e) <> name) /\
  In p (accepted images) /\
  (categoriesKnown images = true ->
   exists g items,
     groupByCategory images = Normal g /\
     getOwn g (category p) = Some items /\
     In p items).
Proof.
  intros Hin Hp Hd.
  assert (Hacc : In p (accepted images)) by (apply accepted_In; eauto).
  split; [|split; [exact Hacc|]].
  - intros e He.
    apply groupByYearMonth_entries in He as (name' & _ & Hp' & Hd').
    assert (Hne : parsed e <> p) by (intros E; rewrite E in Hd'; congruence).
    split; [exact Hne|]. intros Hname. apply Hne.
    pose proof (parseFilename_filename _ _ Hp') as Hf.
    rewrite Hname in Hf. subst name'. congruence.
  - intros Hknown.
    assert (Hcat : In (category p) (keys CATEGORIES)).
    { apply isCategory_key.
      pose proof (categoriesKnown_accepted images Hknown) as Hall.
      rewrite Forall_forall in Hall. exact (Hall p Hacc). }
    rewrite groupByCategory_eq, Hknown.
    eexists. eexists. split; [reflexivity|].
    split; [exact (getOwn_grouped_key images _ Hcat)|].
    apply (Permutation_in _ (sort_perm byOrder _)).
    apply filter_In. split; [exact Hacc|]. apply String.eqb_refl.
Qed.

Lemma undated_item_views_witness :
  (forall e, In e (timelineEntries (groupByYearMonth mixed)) ->
             parsed e <> wilson /\ filename (parsed e) <> "campus_02_Wilson Library.jpg") /\
  In wilson (accepted mixed) /\
  (exists g items,
      groupByCategory mixed = Normal g /\
      getOwn g (category wilson) = Some items /\
      In wilson items).
Proof.
  destruct (undated_item_views mixed "campus_02_Wilson Library.jpg" wilson
              (or_introl eq_refl) eq_refl eq_refl) as (Htimeline & Hacc & Hview).
  split; [exact Htimeline|]. split; [exact Hacc | exact (Hview eq_refl)].
Defined.

(** C5.  [constructor_01_Photo.jpg] is parsed and its description gives no
    date.  The object is in no entry of the timeline view; it does not appear
    in the category view either, although it was handed to it:
    [groupByCategory] throws on the list and returns no view. *)
Theorem undated_item_constructor :
  exists p,
    parseFilename "constructor_01_Photo.jpg" = Parsed p /\
    parseDateFromDescription (description p) = None /\
    timelineEntries (groupByYearMonth [ "constructor_01_Photo.jpg" ]) = [] /\
    In p (accepted [ "constructor_01_Photo.jpg" ]) /\
    groupByCategory [ "constructor_01_Photo.jpg" ] = Throw TypeError /\
    forall g, groupByCategory [ "constructor_01_Photo.jpg" ] <> Normal g.
Proof.
  eexists. split; [reflexivity|]. split; [reflexivity|]. split; [reflexivity|].
  split; [left; reflexivity|]. split; [reflexivity|].
  intros g. discriminate.
Qed.

Lemma groupByYearMonth_mixed :
  groupByYearMonth mixed =
  [ (Fin 2024,
     [ (7, [ {| parsed := {| filename := "lablife_01_Aug 2024 - First Lab Lunch.jpg";
                             category := "lablife"; order := Fin 1;
                             description := "Aug 2024 - First Lab Lunch" |};
                dateInfo := {| year := Fin 2024; month := 7; monthName := "Aug";
                               event := "First Lab Lunch" |} |} ]) ]) ].
Proof. vm_compute. reflexivity. Qed.

End Timeline.

(** ** Further properties of the parser *)

Section ParserShape.

Lemma join_cons (sep x y : string) (rest : list string) :
  join sep (x :: y :: rest) = (x ++ sep ++ join sep (y :: rest))%string.
Proof. reflexivity. Qed.

Lemma parsed_category (name : string) (p : ParsedInfo) :
  parseFilename name = Parsed p ->
  filename p = name /\
  (isCategory (category p) = true \/ category p = "constructor").
Proof.
  unfold parseFilename, parseName.
  set (parts := split "_" (removeExtension name)).
  destruct (List.length parts <? 3)%nat; [discriminate|].
  unfold get, isCategory.
  destruct (getOwn CATEGORIES (toLowerCase (nth 0 parts ""))) as [cfg|] eqn:Hown.
  - intros [= <-]. cbn [category filename]. rewrite Hown. tauto.
  - destruct (inherited (toLowerCase (nth 0 parts ""))) eqn:Hin; [|discriminate].
    intros [= <-]. cbn [category filename]. split; [reflexivity|]. right.
    apply inherited_segment; [| |exact Hin].
    + apply toLowerCase_underscore, nth_split_underscore.
    + apply toLowerCase_not_upper.
Qed.

(** X1.  An object returned by [parseFilename] carries the filename it was
    given, and its category is one of the four of the enumeration or, through
    the inherited property, [constructor]: no other category ever leaves the
    parser. *)
Theorem parseFilename_category (name : string) (p : ParsedInfo) :
  parseFilename name = Parsed p ->
  filename p = name /\
  (isCategory (category p) = true \/ category p = "constructor").
Proof. exact (parsed_category name p). Qed.

Lemma parseFilename_category_witness :
  filename wilson = "campus_02_Wilson Library.jpg" /\
  (isCategory (category wilson) = true \/ category wilson = "constructor").
Proof.
  exact (parseFilename_category "campus_02_Wilson Library.jpg" wilson eq_refl).
Defined.

(** X2.  Reading an accepted filename back: without its extension it is the
    first segment, the order segment and the parsed description, joined by
    underscores; the category is the first segment in lower case and the
    order is what [parseInt] reads in the second. *)
Theorem parseFilename_shape (name : string) (p : ParsedInfo) :
  parseFilename name = Parsed p ->
  exists cat ord,
    removeExtension name = (cat ++ "_" ++ ord ++ "_" ++ description p)%string /\
    allChars (isNot "_") cat = true /\
    allChars (isNot "_") ord = true /\
    category p = toLowerCase cat /\
    order p = parseInt10 ord.
Proof.
  unfold parseFilename, parseName.
  pose proof (join_split "_" (removeExtension name)) as Hjoin.
  pose proof (split_segments "_" (removeExtension name)) as Hseg.
  destruct (split "_" (removeExtension name)) as [|a [|b [|c rest]]];
    try discriminate.
  cbn [List.length Nat.ltb Nat.leb nth slice skipn].
  destruct (negb _); [discriminate|]. intros [= <-]. cbn [description category order].
  exists a, b. rewrite <- Hjoin.
  inversion Hseg as [|? ? Ha Hrest]; subst. inversion Hrest as [|? ? Hb _]; subst.
  repeat split; assumption || reflexivity.
Qed.

Lemma parseFilename_shape_witness :
  exists cat ord,
    removeExtension "campus_02_Wilson Library.jpg" =
      (cat ++ "_" ++ ord ++ "_" ++ description wilson)%string /\
    allChars (isNot "_") cat = true /\
    allChars (isNot "_") ord = true /\
    category wilson = toLowerCase cat /\
    order wilson = parseInt10 ord.
Proof.
  exact (parseFilename_shape "campus_02_Wilson Library.jpg" wilson eq_refl).
Defined.

End ParserShape.

(** ** Further properties of the category view *)

Section CategoryView.

Lemma accepted_app (l1 l2 : list string) :
  accepted (l1 ++ l2) = accepted l1 ++ accepted l2.
Proof. apply flat_map_app. Qed.

Lemma categoriesKnown_app (l1 l2 : list string) :
  categoriesKnown (l1 ++ l2) = categoriesKnown l1 && categoriesKnown l2.
Proof. apply forallb_app. Qed.

(** X3.  [groupByCategory] throws, and then a [TypeError], exactly when a
    filename of the list is parsed with the category [constructor]; on every
    other list it returns the view. *)
Theorem groupByCategory_throws (images : list string) :
  groupByCategory images = Throw TypeError <->
  exists name p,
    In name images /\ parseFilename name = Parsed p /\ category p = "constructor".
Proof.
  rewrite groupByCategory_eq. split.
  - destruct (categoriesKnown images) eqn:Hknown; [discriminate|]. intros _.
    unfold categoriesKnown in Hknown.
    assert (Hex : existsb (fun filename =>
                             negb match parseFilename filename with
                                  | Parsed parsed => isCategory (category parsed)
                                  | Rejected _ => true
                                  end) images = true).
    { clear -Hknown. induction images as [|f images IH]; simpl in *; [discriminate|].
      destruct (match parseFilename f with Parsed _ => _ | Rejected _ => _ end);
        simpl in *; [now apply IH | reflexivity]. }
    apply existsb_exists in Hex as (name & Hin & Hbad).
    destruct (parseFilename name) as [p|w] eqn:Hp; [|discriminate].
    exists name, p. split; [exact Hin|]. split; [exact Hp|].
    apply negb_true_iff in Hbad.
    destruct (parsed_category name p Hp) as [_ [H|H]]; congruence.
  - intros (name & p & Hin & Hp & Hcat).
    destruct (categoriesKnown images) eqn:Hknown; [|reflexivity].
    unfold categoriesKnown in Hknown. rewrite forallb_forall in Hknown.
    specialize (Hknown name Hin). rewrite Hp, Hcat in Hknown. discriminate.
Qed.

Lemma groupByCategory_throws_witness :
  groupByCategory constructorNames = Throw TypeError.
Proof.
  apply (proj2 (groupByCategory_throws constructorNames)).
  exists "Constructor_7_Old Well.png". eexists.
  split; [simpl; tauto|]. split; reflexivity.
Defined.

(** X4.  A rejected filename is passed over: with or without it in the list,
    at any place, both views are the same. *)
Theorem rejected_filename_skipped (before after : list string) (name : string) (w : Warning) :
  parseFilename name = Rejected w ->
  groupByCategory (before ++ name :: after) = groupByCategory (before ++ after) /\
  groupByYearMonth (before ++ name :: after) = groupByYearMonth (before ++ after).
Proof.
  intros Hrej. split.
  - rewrite !groupByCategory_eq, !accepted_app, !categoriesKnown_app.
    cbn [accepted flat_map categoriesKnown forallb]. rewrite Hrej. reflexivity.
  - unfold groupByYearMonth. rewrite !fold_left_app. cbn [fold_left].
    rewrite Hrej. reflexivity.
Qed.

Lemma rejected_filename_skipped_witness :
  groupByCategory ([ "lablife_01_Aug 2024 - Lunch.jpg" ] ++ "bogus.jpg" :: [ "campus_02_Wilson Library.jpg" ]) =
    groupByCategory ([ "lablife_01_Aug 2024 - Lunch.jpg" ] ++ [ "campus_02_Wilson Library.jpg" ]) /\
  groupByYearMonth ([ "lablife_01_Aug 2024 - Lunch.jpg" ] ++ "bogus.jpg" :: [ "campus_02_Wilson Library.jpg" ]) =
    groupByYearMonth ([ "lablife_01_Aug 2024 - Lunch.jpg" ] ++ [ "campus_02_Wilson Library.jpg" ]).
Proof.
  exact (rejected_filename_skipped [ "lablife_01_Aug 2024 - Lunch.jpg" ]
           [ "campus_02_Wilson Library.jpg" ] "bogus.jpg"
           (InvalidFilenameFormat "bogus.jpg") eq_refl).
Defined.

Lemma groupByCategory_partition_witness :
  exists g,
    groupByCategory tied = Normal g /\
    (forall p, In p (accepted tied) ->
               forall cat, In cat (keys CATEGORIES) ->
               exists items, getOwn g cat = Some items /\
                             (In p items <-> cat = category p)) /\
    List.length (concat (map snd g)) = List.length (accepted tied).
Proof.
  exact (groupByCategory_partition tied eq_refl).
Defined.

End CategoryView.

(** ** The category view and the order of the list *)

Section NumberSort.

Lemma insert_numbers (x : Number) (l : list Number) :
  x <> NaN -> Forall (fun n => n <> NaN) l ->
  StronglySorted (fun a b => le a b = true) l ->
  StronglySorted (fun a b => le a b = true) (insert sub x l).
Proof.
  intros Hx Hl Hs. induction Hs as [|y l Hs IH Hy]; simpl.
  - repeat constructor.
  - inversion Hl as [|? ? Hny Hnl]; subst.
    rewrite sub_isPositive. destruct (lt y x) eqn:E.
    + constructor; [exact (IH Hnl)|].
      apply (Permutation_Forall (insert_perm sub x l)).
      constructor; [exact (lt_le _ _ E) | exact Hy].
    + assert (Hxy : le x y = true) by (now apply not_lt_le).
      constructor; [now constructor|].
      constructor; [exact Hxy|].
      eapply Forall_impl; [|exact Hy].
      intros z Hz. exact (le_trans _ _ _ Hxy Hz).
Qed.

Lemma sort_numbers (l : list Number) :
  Forall (fun n => n <> NaN) l ->
  StronglySorted (fun a b => le a b = true) (sort sub l).
Proof.
  induction 1 as [|x l Hx Hl IH]; simpl; [constructor|].
  apply insert_numbers; [assumption | | assumption].
  exact (Permutation_Forall (sort_perm sub l) Hl).
Qed.

Lemma le_neq_lt (a b : Number) : le a b = true -> a <> b -> lt a b = true.
Proof.
  destruct a as [|x|[]], b as [|y|[]]; simpl; try discriminate; try reflexivity;
    try (intros _ H; now elim H).
  rewrite negb_true_iff, Z.ltb_ge, Z.ltb_lt. intros Hle Hne.
  assert (x <> y) by congruence. lia.
Qed.

Lemma sorted_increasing (l : list Number) :
  StronglySorted (fun a b => le a b = true) l -> NoDup l -> increasing l.
Proof.
  intros Hs. induction Hs as [|x l Hs IH Hx]; intros Hnd; [constructor|].
  inversion Hnd as [|? ? Hnotin Hnd']; subst.
  constructor; [exact (IH Hnd')|].
  rewrite Forall_forall in *. intros y Hy.
  apply le_neq_lt; [exact (Hx y Hy)|]. intros ->. contradiction.
Qed.

(** Distinct numbers come out of the sort strictly ascending. *)
Lemma sort_increasing (l : list Number) :
  Forall (fun n => n <> NaN) l -> NoDup l -> increasing (sort sub l).
Proof.
  intros Hnum Hnd. apply sorted_increasing; [now apply sort_numbers|].
  exact (Permutation_NoDup (sort_perm sub l) Hnd).
Qed.

End NumberSort.

Section OrderIndependence.

Lemma sorted_unique {A : Type} (R : A -> A -> Prop) (l l' : list A) :
  (forall a b, R a b -> R b a -> False) ->
  StronglySorted R l -> StronglySorted R l' -> Permutation l l' -> l = l'.
Proof.
  intros Hasym Hl. revert l'. induction Hl as [|x t Ht IH Hx]; intros l' Hl' Hperm.
  - now apply Permutation_nil in Hperm.
  - destruct l' as [|y t']; [apply Permutation_sym, Permutation_nil in Hperm; discriminate|].
    inversion Hl' as [|? ? Ht' Hy]; subst.
    assert (Hxy : x = y).
    { assert (Hin : In x (y :: t')) by (apply (Permutation_in _ Hperm); now left).
      assert (Hin' : In y (x :: t))
        by (apply (Permutation_in _ (Permutation_sym Hperm)); now left).
      destruct Hin as [->|Hin]; [reflexivity|].
      destruct Hin' as [->|Hin']; [reflexivity|].
      rewrite Forall_forall in Hx, Hy.
      elim (Hasym x y (Hx y Hin') (Hy x Hin)). }
    subst y. f_equal. apply IH; [exact Ht'|].
    exact (Permutation_cons_inv Hperm).
Qed.

Lemma lt_asym (a b : Number) : lt a b = true -> lt b a = true -> False.
Proof.
  destruct a as [|x|[]], b as [|y|[]]; simpl; try discriminate.
  rewrite !Z.ltb_lt. lia.
Qed.

Lemma ascending_strict (l : list ParsedInfo) :
  ascending l -> NoDup (map order l) ->
  StronglySorted (fun a b => lt (order a) (order b) = true) l.
Proof.
  intros Hs. induction Hs as [|x l Hs IH Hx]; intros Hnd; [constructor|].
  cbn [map] in Hnd. inversion Hnd as [|? ? Hnotin Hnd']; subst.
  constructor; [exact (IH Hnd')|].
  rewrite Forall_forall in *. intros y Hy.
  apply le_neq_lt; [exact (Hx y Hy)|]. intros Heq. apply Hnotin.
  rewrite Heq. now apply in_map.
Qed.

Lemma sort_permuted (l l' : list ParsedInfo) :
  Permutation l l' -> Forall numeric l -> NoDup (map order l) ->
  sort byOrder l' = sort byOrder l.
Proof.
  intros Hperm Hnum Hnd.
  apply (sorted_unique (fun a b => lt (order a) (order b) = true)).
  - intros a b. apply lt_asym.
  - apply ascending_strict.
    + apply sort_ascending. exact (Permutation_Forall Hperm Hnum).
    + apply (Permutation_NoDup (l := map order l)); [|exact Hnd].
      apply Permutation_map. rewrite <- (sort_perm byOrder l'). exact Hperm.
  - apply ascending_strict.
    + now apply sort_ascending.
    + apply (Permutation_NoDup (l := map order l)); [|exact Hnd].
      apply Permutation_map. apply sort_perm.
  - rewrite <- (sort_perm byOrder l'), <- (sort_perm byOrder l).
    now apply Permutation_sym.
Qed.

Lemma accepted_permuted (images images' : list string) :
  Permutation images images' -> Permutation (accepted images) (accepted images').
Proof. intros H. unfold accepted. now apply Permutation_flat_map. Qed.

Lemma filter_permuted {A : Type} (f : A -> bool) (l l' : list A) :
  Permutation l l' -> Permutation (filter f l) (filter f l').
Proof.
  induction 1 as [|x l l' _ IH|x y l|l l' l'' _ IH1 _ IH2]; simpl.
  - constructor.
  - destruct (f x); [now constructor | exact IH].
  - destruct (f x), (f y); try reflexivity. apply perm_swap.
  - now transitivity (filter f l').
Qed.

Lemma categoriesKnown_permuted (images images' : list string) :
  Permutation images images' -> categoriesKnown images' = categoriesKnown images.
Proof.
  intros Hperm. unfold categoriesKnown.
  destruct (forallb _ images) eqn:E.
  - rewrite forallb_forall in *. intros f Hf. apply E.
    exact (Permutation_in _ (Permutation_sym Hperm) Hf).
  - destruct (forallb _ images') eqn:E'; [|reflexivity].
    rewrite <- E. symmetry. rewrite forallb_forall in *. intros f Hf. apply E'.
    exact (Permutation_in _ Hperm Hf).
Qed.

(** X6.  The category view does not depend on the order of the filenames in
    the list, as long as the orders within each category are numbers and no
    two of them are the same. *)
Theorem groupByCategory_order_independent (images images' : list string) :
  Permutation images images' ->
  (forall cat, In cat (keys CATEGORIES) ->
               Forall numeric (filter (inCategory cat) (accepted images)) /\
               NoDup (map order (filter (inCategory cat) (accepted images)))) ->
  groupByCategory images' = groupByCategory images.
Proof.
  intros Hperm Hdistinct.
  rewrite !groupByCategory_eq, (categoriesKnown_permuted _ _ Hperm).
  destruct (categoriesKnown images); [|reflexivity]. f_equal.
  apply map_ext_in. intros cat Hcat. f_equal.
  destruct (Hdistinct cat Hcat) as [Hnum Hnd].
  apply sort_permuted; [|exact Hnum | exact Hnd].
  apply filter_permuted, accepted_permuted, Hperm.
Qed.

Lemma groupByCategory_order_independent_witness :
  groupByCategory (rev GALLERY_IMAGES) = groupByCategory GALLERY_IMAGES.
Proof.
  apply (groupByCategory_order_independent GALLERY_IMAGES (rev GALLERY_IMAGES)).
  - apply Permutation_rev.
  - intros cat Hcat. cbn [keys CATEGORIES map fst In] in Hcat.
    destruct Hcat as [<-|[<-|[<-|[<-|[]]]]]; vm_compute;
      (split;
       [ repeat (apply Forall_cons; [discriminate|]); apply Forall_nil
       | repeat (apply NoDup_cons;
                 [intros Hin; repeat (destruct Hin as [Hin|Hin]; [discriminate Hin|]);
                  exact Hin|]);
         apply NoDup_nil ]).
Defined.

End OrderIndependence.

(** ** Further properties of the timeline view *)

Section DictFacts.
Context {K A : Type} (eqb : K -> K -> bool).
Hypothesis eqb_eq : forall a b, eqb a b = true <-> a = b.

Lemma dict_eqb_refl (k : K) : eqb k k = true.
Proof. now apply eqb_eq. Qed.

Lemma lookup_update_same (o : Dict K A) (k : K) (v : A) :
  lookup eqb (update eqb o k v) k = Some v.
Proof.
  induction o as [|[k0 v0] o IH]; simpl.
  - now rewrite dict_eqb_refl.
  - destruct (eqb k0 k) eqn:E; simpl; rewrite E; [reflexivity | exact IH].
Qed.

Lemma lookup_update_other (o : Dict K A) (k k' : K) (v : A) :
  k <> k' -> lookup eqb (update eqb o k v) k' = lookup eqb o k'.
Proof.
  intros Hne. induction o as [|[k0 v0] o IH]; simpl.
  - destruct (eqb k k') eqn:E; [apply eqb_eq in E; contradiction | reflexivity].
  - destruct (eqb k0 k) eqn:E; simpl.
    + apply eqb_eq in E. subst k0.
      destruct (eqb k k') eqn:E'; [apply eqb_eq in E'; contradiction | reflexivity].
    + destruct (eqb k0 k'); [reflexivity | exact IH].
Qed.

Lemma update_update (o : Dict K A) (k : K) (v v' : A) :
  update eqb (update eqb o k v) k v' = update eqb o k v'.
Proof.
  induction o as [|[k0 v0] o IH]; simpl.
  - now rewrite dict_eqb_refl.
  - destruct (eqb k0 k) eqn:E; simpl; rewrite E; [reflexivity | now rewrite IH].
Qed.

Lemma update_not_nil (o : Dict K A) (k : K) (v : A) : update eqb o k v <> [].
Proof. destruct o as [|[k0 v0] o]; simpl; [|destruct (eqb k0 k)]; discriminate. Qed.

Lemma lookup_In (o : Dict K A) (k : K) (v : A) :
  lookup eqb o k = Some v -> In (k, v) o.
Proof.
  induction o as [|[k0 v0] o IH]; simpl; [discriminate|].
  destruct (eqb k0 k) eqn:E.
  - apply eqb_eq in E. subst k0. intros [= ->]. now left.
  - intros H. right. now apply IH.
Qed.

Lemma In_update (o : Dict K A) (k : K) (v : A) (kv : K * A) :
  In kv (update eqb o k v) -> kv = (k, v) \/ In kv o.
Proof.
  induction o as [|[k0 v0] o IH]; simpl.
  - intros [<-|[]]. now left.
  - destruct (eqb k0 k) eqn:E; simpl.
    + apply eqb_eq in E. subst k0. intros [<-|H]; tauto.
    + intros [<-|H]; [tauto|]. destruct (IH H); tauto.
Qed.

End DictFacts.

Section TimelineView.

(** What [addEntry] comes to: the entry is put behind the entries of its
    month, under its year. *)
Lemma addEntry_eq (grouped : Timeline) (entry : TimelineEntry) :
  let y := year (dateInfo entry) in
  let m := month (dateInfo entry) in
  let months := orEmpty (lookup Number_eqb grouped y) in
  let items := orEmpty (lookup Nat.eqb months m) in
  addEntry grouped entry =
  update Number_eqb grouped y (update Nat.eqb months m (items ++ [entry])).
Proof.
  intros y m months items. unfold addEntry. fold y. fold m.
  unfold items, months.
  destruct (lookup Number_eqb grouped y) as [ms|] eqn:Ey.
  - rewrite Ey. cbn [orEmpty].
    destruct (lookup Nat.eqb ms m) as [its|] eqn:Em.
    + rewrite Em. reflexivity.
    + rewrite (lookup_update_same Nat.eqb Nat.eqb_eq), (update_update Nat.eqb Nat.eqb_eq).
      reflexivity.
  - rewrite (lookup_update_same Number_eqb Number_eqb_eq).
    rewrite (update_update Number_eqb Number_eqb_eq).
    cbn [orEmpty lookup update]. rewrite !Nat.eqb_refl. reflexivity.
Qed.

Lemma bucket_addEntry (grouped : Timeline) (entry : TimelineEntry) (y : Number) (m : nat) :
  bucket (addEntry grouped entry) y m =
  bucket grouped y m ++ (if inMonth y m entry then [entry] else []).
Proof.
  rewrite addEntry_eq. cbv zeta. unfold bucket, inMonth.
  set (ye := year (dateInfo entry)). set (me := month (dateInfo entry)).
  destruct (Number_eqb ye y) eqn:Ey.
  - apply Number_eqb_eq in Ey. subst y.
    rewrite (lookup_update_same Number_eqb Number_eqb_eq).
    destruct (Nat.eqb_spec me m) as [<-|Hm]; cbn [andb].
    + rewrite (lookup_update_same Nat.eqb Nat.eqb_eq).
      destruct (lookup Number_eqb grouped ye) as [ms|]; cbn [orEmpty]; [|reflexivity].
      destruct (lookup Nat.eqb ms me); reflexivity.
    + rewrite (lookup_update_other Nat.eqb Nat.eqb_eq) by exact Hm.
      rewrite app_nil_r.
      destruct (lookup Number_eqb grouped ye) as [ms|]; reflexivity.
  - cbn [andb]. rewrite app_nil_r.
    rewrite (lookup_update_other Number_eqb Number_eqb_eq); [reflexivity|].
    intros ->. rewrite (proj2 (Number_eqb_eq y y) eq_refl) in Ey. discriminate.
Qed.

Lemma bucket_fold (images : list string) (grouped : Timeline) (y : Number) (m : nat) :
  bucket
    (fold_left
       (fun grouped filename =>
          match parseFilename filename with
          | Rejected _ => grouped
          | Parsed parsed =>
              match parseDateFromDescription (description parsed) with
              | None => grouped
              | Some dateInfo =>
                  addEntry grouped {| parsed := parsed; dateInfo := dateInfo |}
              end
          end) images grouped) y m =
  bucket grouped y m ++ filter (inMonth y m) (dated images).
Proof.
  revert grouped. induction images as [|f images IH]; intros grouped; simpl.
  - now rewrite app_nil_r.
  - rewrite IH. destruct (parseFilename f) as [p|w]; [|reflexivity].
    destruct (parseDateFromDescription (description p)) as [d|]; [|reflexivity].
    rewrite bucket_addEntry, <- app_assoc, filter_app. cbn [filter].
    destruct (inMonth y m _); reflexivity.
Qed.

Lemma bucket_dated (images : list string) (y : Number) (m : nat) :
  bucket (groupByYearMonth images) y m = filter (inMonth y m) (dated images).
Proof.
  unfold groupByYearMonth. rewrite bucket_fold. reflexivity.
Qed.

(** X7.  The sequence [grouped[y][m]] of the timeline view holds the entries
    of the year [y] and the month [m] and no other, in the order in which
    their filenames stand in the list. *)
Theorem groupByYearMonth_bucket (images : list string) (y : Number) (m : nat) :
  bucket (groupByYearMonth images) y m = filter (inMonth y m) (dated images).
Proof. exact (bucket_dated images y m). Qed.

End TimelineView.

(** ** Further properties of the date heuristic *)

Section DateShape.

Lemma takeExactly_spec (n : nat) (p : ascii -> bool) (s taken rest : string) :
  takeExactly n p s = Some (taken, rest) ->
  s = (taken ++ rest)%string /\ String.length taken = n /\ allChars p taken = true.
Proof.
  revert s taken rest. induction n as [|n IH]; intros s taken rest; simpl.
  - intros [= <- <-]. auto.
  - destruct s as [|c s]; [discriminate|].
    destruct (p c) eqn:Hc; [|discriminate].
    destruct (takeExactly n p s) as [[t r]|] eqn:E; [|discriminate].
    intros [= <- <-]. destruct (IH _ _ _ E) as (-> & <- & Hall).
    simpl. now rewrite Hc, Hall.
Qed.

Lemma takeExactly_complete (p : ascii -> bool) (taken rest : string) :
  allChars p taken = true ->
  takeExactly (String.length taken) p (taken ++ rest) = Some (taken, rest).
Proof.
  induction taken as [|c t IH]; simpl; [reflexivity|].
  intros H. apply andb_prop in H as [Hc Ht]. now rewrite Hc, (IH Ht).
Qed.

Lemma takeWhile_dropWhile (p : ascii -> bool) (s : string) :
  (takeWhile p s ++ dropWhile p s)%string = s.
Proof.
  induction s as [|c s IH]; simpl; [reflexivity|].
  destruct (p c); simpl; [now rewrite IH | reflexivity].
Qed.

Lemma allChars_takeWhile (p : ascii -> bool) (s : string) :
  allChars p (takeWhile p s) = true.
Proof.
  induction s as [|c s IH]; simpl; [reflexivity|].
  destruct (p c) eqn:Hc; simpl; [now rewrite Hc | reflexivity].
Qed.

Lemma startsOutside_dropWhile (p : ascii -> bool) (s : string) :
  startsOutside p (dropWhile p s) = true.
Proof.
  induction s as [|c s IH]; simpl; [reflexivity|].
  destruct (p c) eqn:Hc; simpl; [exact IH | now rewrite Hc].
Qed.

Lemma takeWhile_append (p : ascii -> bool) (a b : string) :
  allChars p a = true -> startsOutside p b = true ->
  takeWhile p (a ++ b) = a /\ dropWhile p (a ++ b) = b.
Proof.
  intros Ha Hb. induction a as [|c a IH]; simpl.
  - destruct b as [|c b]; simpl in *; [auto|].
    apply negb_true_iff in Hb. now rewrite Hb.
  - simpl in Ha. apply andb_prop in Ha as [Hc Ha]. rewrite Hc.
    destruct (IH Ha) as [-> ->]. auto.
Qed.

Lemma length_append (a b : string) :
  String.length (a ++ b) = String.length a + String.length b.
Proof. induction a as [|c a IH]; simpl; [reflexivity | now rewrite IH]. Qed.

Lemma dropChars_append (a s : string) (j : nat) :
  dropChars (String.length a + j) (a ++ s) = dropChars j s.
Proof. induction a as [|c a IH]; simpl; [reflexivity | exact IH]. Qed.

Lemma dropChars_prefix (p : ascii -> bool) (s : string) (j : nat) :
  j <= String.length (takeWhile p s) ->
  exists u, s = (u ++ dropChars j s)%string /\ allChars p u = true /\ String.length u = j.
Proof.
  revert s. induction j as [|j IH]; intros s Hj.
  - exists EmptyString. destruct s; auto.
  - destruct s as [|c s]; simpl in Hj; [lia|].
    destruct (p c) eqn:Hc; simpl in Hj; [|lia].
    destruct (IH s) as (u & Hs & Hu & Hlen); [lia|].
    exists (String c u). simpl. rewrite Hc, Hu, Hlen. now rewrite <- Hs.
Qed.

Lemma matchEvent_unfold (k : nat) (s : string) :
  matchEvent k s =
  if eventGroup (dropChars k s) then Some (dropChars k s)
  else match k with
       | O => None
       | S k' => matchEvent k' s
       end.
Proof. destruct k; reflexivity. Qed.

Lemma matchEvent_sound (k : nat) (s g : string) :
  matchEvent k s = Some g ->
  exists j, j <= k /\ g = dropChars j s /\ eventGroup g = true.
Proof.
  induction k as [|k IH]; rewrite matchEvent_unfold.
  - destruct (eventGroup (dropChars 0 s)) eqn:E; [|discriminate].
    intros [= <-]. exists 0. auto.
  - destruct (eventGroup (dropChars (S k) s)) eqn:E.
    + intros [= <-]. exists (S k). auto.
    + intros H. destruct (IH H) as (j & Hj & Hg & He). exists j. auto.
Qed.

Lemma matchEvent_complete (k j : nat) (s : string) :
  j <= k -> eventGroup (dropChars j s) = true ->
  exists j', j <= j' <= k /\ matchEvent k s = Some (dropChars j' s).
Proof.
  intros Hj Hgood. induction k as [|k IH]; rewrite matchEvent_unfold.
  - assert (j = 0) by lia. subst j. exists 0. split; [lia|]. now rewrite Hgood.
  - destruct (eventGroup (dropChars (S k) s)) eqn:E.
    + exists (S k). split; [lia | reflexivity].
    + assert (Hjk : j <= k).
      { destruct (Nat.eq_dec j (S k)) as [->|]; [congruence | lia]. }
      destruct (IH Hjk) as (j' & Hj' & Hm). exists j'. split; [lia | exact Hm].
Qed.

Lemma digit_not_space (c : ascii) : isDigit c = true -> isWhiteSpace c = false.
Proof. destruct c as [[] [] [] [] [] [] [] []]; vm_compute; congruence. Qed.

Lemma allChars_nonempty_start (p q : ascii -> bool) (s rest : string) :
  (forall c, p c = true -> q c = false) ->
  allChars p s = true -> s <> EmptyString ->
  startsOutside q (s ++ rest) = true.
Proof.
  intros Hpq Hs Hne. destruct s as [|c s]; [contradiction|].
  simpl in *. apply andb_prop in Hs as [Hc _]. now rewrite (Hpq c Hc).
Qed.

Lemma length_nonempty (s : string) (n : nat) :
  String.length s = S n -> s <> EmptyString.
Proof. destruct s; [discriminate | intros _; discriminate]. Qed.

(** The groups of a match lie in the description as the pattern says. *)
Lemma matchDate_sound (description g1 g2 g3 : string) :
  matchDate description = Some (g1, g2, g3) ->
  exists w1 w2 w3,
    description = (g1 ++ w1 ++ g2 ++ w2 ++ "-" ++ w3 ++ g3)%string /\
    (String.length g1 = 3 /\ allChars isAlpha g1 = true) /\
    (w1 <> EmptyString /\ allChars isWhiteSpace w1 = true) /\
    (String.length g2 = 4 /\ allChars isDigit g2 = true) /\
    allChars isWhiteSpace w2 = true /\
    allChars isWhiteSpace w3 = true /\
    eventGroup g3 = true.
Proof.
  unfold matchDate.
  destruct (takeExactly 3 isAlpha description) as [[m rest1]|] eqn:E1; [|discriminate].
  apply takeExactly_spec in E1 as (-> & Hm3 & Hm).
  pose proof (takeWhile_dropWhile isWhiteSpace rest1) as Hsplit1.
  pose proof (allChars_takeWhile isWhiteSpace rest1) as Hw1.
  destruct (takeWhile isWhiteSpace rest1) as [|c1 w1] eqn:Ew1; [discriminate|].
  destruct (takeExactly 4 isDigit (dropWhile isWhiteSpace rest1)) as [[y rest2]|] eqn:E2;
    [|discriminate].
  apply takeExactly_spec in E2 as (E2 & Hy4 & Hy).
  pose proof (takeWhile_dropWhile isWhiteSpace rest2) as Hsplit2.
  pose proof (allChars_takeWhile isWhiteSpace rest2) as Hw2.
  destruct (dropWhile isWhiteSpace rest2) as [|c rest3] eqn:E3; [discriminate|].
  destruct (Ascii.eqb_spec c "-") as [->|Hc];
    [|destruct c as [[] [] [] [] [] [] [] []]; try discriminate; now elim Hc].
  destruct (matchEvent _ rest3) as [g|] eqn:E4; [|discriminate].
  intros [= <- <- <-].
  apply matchEvent_sound in E4 as (j & Hj & -> & Hgood).
  destruct (dropChars_prefix isWhiteSpace rest3 j Hj) as (w3 & Hs3 & Hw3 & _).
  exists (String c1 w1), (takeWhile isWhiteSpace rest2), w3.
  split.
  - rewrite <- Hsplit1 at 1. rewrite E2. rewrite <- Hsplit2 at 1.
    rewrite Hs3 at 1. reflexivity.
  - repeat split; auto. discriminate.
Qed.

(** A description that is built as the pattern says is matched, with the same
    month and year; the event group is the text behind the hyphen without
    white space in front of it (or with as little of it as keeps the group
    from being empty). *)
Lemma matchDate_complete (mon w1 yr w2 w3 ev : string) :
  String.length mon = 3 -> allChars isAlpha mon = true ->
  w1 <> EmptyString -> allChars isWhiteSpace w1 = true ->
  String.length yr = 4 -> allChars isDigit yr = true ->
  allChars isWhiteSpace w2 = true ->
  allChars isWhiteSpace w3 = true ->
  eventGroup ev = true ->
  exists u g3,
    matchDate (mon ++ w1 ++ yr ++ w2 ++ "-" ++ w3 ++ ev) = Some (mon, yr, g3) /\
    ev = (u ++ g3)%string /\ allChars isWhiteSpace u = true.
Proof.
  intros Hm3 Hm Hw1ne Hw1 Hy4 Hy Hw2 Hw3 Hev.
  unfold matchDate.
  replace (takeExactly 3 isAlpha) with (takeExactly (String.length mon) isAlpha)
    by (now rewrite Hm3).
  rewrite (takeExactly_complete isAlpha mon _ Hm).
  assert (Hstart1 : startsOutside isWhiteSpace (yr ++ w2 ++ "-" ++ w3 ++ ev) = true).
  { apply (allChars_nonempty_start isDigit); [exact digit_not_space | exact Hy|].
    now apply (length_nonempty _ 3). }
  destruct (takeWhile_append isWhiteSpace w1 _ Hw1 Hstart1) as [-> ->].
  destruct w1 as [|c1 w1]; [contradiction|].
  replace (takeExactly 4 isDigit) with (takeExactly (String.length yr) isDigit)
    by (now rewrite Hy4).
  rewrite (takeExactly_complete isDigit yr _ Hy).
  assert (Hstart2 : startsOutside isWhiteSpace ("-" ++ w3 ++ ev) = true) by reflexivity.
  destruct (takeWhile_append isWhiteSpace w2 _ Hw2 Hstart2) as [_ ->].
  simpl append.
  pose proof (startsOutside_dropWhile isWhiteSpace ev) as Hstart3.
  pose proof (allChars_takeWhile isWhiteSpace ev) as Hwe.
  assert (Hk : takeWhile isWhiteSpace (w3 ++ ev) = (w3 ++ takeWhile isWhiteSpace ev)%string).
  { rewrite <- (takeWhile_dropWhile isWhiteSpace ev) at 1. rewrite <- append_assoc.
    apply takeWhile_append; [|exact Hstart3].
    rewrite allChars_append. now rewrite Hw3, Hwe. }
  cbv beta iota. rewrite Hk.
  assert (Hgood : eventGroup (dropChars (String.length w3) (w3 ++ ev)) = true).
  { rewrite <- (Nat.add_0_r (String.length w3)), dropChars_append.
    destruct ev; exact Hev. }
  destruct (matchEvent_complete
              (String.length (w3 ++ takeWhile isWhiteSpace ev)) (String.length w3)
              (w3 ++ ev)) as (j' & Hj' & ->); [|exact Hgood|].
  { rewrite length_append. lia. }
  rewrite length_append in Hj'.
  replace j' with (String.length w3 + (j' - String.length w3)) by lia.
  rewrite dropChars_append.
  destruct (dropChars_prefix isWhiteSpace ev (j' - String.length w3)) as (u & Hu & Hws & _);
    [lia|].
  exists u, (dropChars (j' - String.length w3) ev). auto.
Qed.

End DateShape.

Section DateFields.

Lemma digitValue_range (c : ascii) : isDigit c = true -> (0 <= digitValue c <= 9)%Z.
Proof. destruct c as [[] [] [] [] [] [] [] []]; vm_compute; intuition congruence. Qed.

Lemma digitsValue_bound (s : string) (acc : Z) :
  allChars isDigit s = true -> (0 <= acc)%Z ->
  (acc * 10 ^ Z.of_nat (String.length s) <= digitsValue acc s
   < (acc + 1) * 10 ^ Z.of_nat (String.length s))%Z.
Proof.
  revert acc. induction s as [|c s IH]; intros acc Hs Hacc.
  - simpl. lia.
  - simpl in Hs. apply andb_prop in Hs as [Hc Hs].
    pose proof (digitValue_range c Hc) as Hd.
    cbn [digitsValue String.length].
    specialize (IH (10 * acc + digitValue c)%Z Hs ltac:(lia)).
    rewrite Nat2Z.inj_succ, Z.pow_succ_r by lia.
    assert (Hpow : (0 < 10 ^ Z.of_nat (String.length s))%Z)
      by (apply Z.pow_pos_nonneg; lia).
    nia.
Qed.

Lemma takeWhile_all (p : ascii -> bool) (s : string) :
  allChars p s = true -> takeWhile p s = s.
Proof.
  induction s as [|c s IH]; simpl; [reflexivity|].
  intros H. apply andb_prop in H as [Hc Hs]. now rewrite Hc, (IH Hs).
Qed.

Lemma ofInteger_small (z : Z) : (Z.abs z < 2 ^ 53)%Z -> ofInteger z = Fin z.
Proof.
  intros H. unfold ofInteger.
  now destruct (Z.ltb_spec (Z.abs z) (2 ^ 53)); [|lia].
Qed.

(** [parseInt] on a run of digits: the number they spell. *)
Lemma parseInt10_digits (s : string) :
  s <> EmptyString -> allChars isDigit s = true ->
  parseInt10 s = ofInteger (digitsValue 0 s).
Proof.
  destruct s as [|c s]; [contradiction|]. intros _ Hs.
  simpl in Hs. apply andb_prop in Hs as [Hc Hs].
  unfold parseInt10. cbn [dropWhile]. rewrite (digit_not_space c Hc).
  destruct c as [[] [] [] [] [] [] [] []]; try discriminate Hc;
    cbn [takeWhile]; rewrite ?Hc; cbv beta iota;
    change (isDigit _) with true; cbv beta iota;
    rewrite (takeWhile_all isDigit s Hs); reflexivity.
Qed.

Lemma parseInt10_year (s : string) :
  String.length s = 4 -> allChars isDigit s = true ->
  exists z, parseInt10 s = Fin z /\ (0 <= z <= 9999)%Z.
Proof.
  intros Hlen Hs.
  rewrite parseInt10_digits; [|now apply (length_nonempty _ 3) | exact Hs].
  pose proof (digitsValue_bound s 0 Hs ltac:(lia)) as Hb.
  rewrite Hlen in Hb. change (10 ^ Z.of_nat 4)%Z with 10000%Z in Hb.
  exists (digitsValue 0 s). split; [|lia].
  apply ofInteger_small. change (2 ^ 53)%Z with 9007199254740992%Z. lia.
Qed.

Lemma MONTH_MAP_value (k : string) (m : nat) :
  getOwn MONTH_MAP k = Some m ->
  m < 12 /\ toLowerCase (nth m MONTH_NAMES "") = k.
Proof.
  unfold getOwn, MONTH_MAP. cbn [lookup].
  repeat match goal with
         | |- context [String.eqb ?a k] =>
             let E := fresh "E" in
             destruct (String.eqb_spec a k) as [E|E];
             [intros [= <-]; subst k; split; [lia | reflexivity]|]
         end.
  discriminate.
Qed.

Lemma parseDate_inv (description : string) (d : DateInfo) :
  parseDateFromDescription description = Some d ->
  exists g1 g2 g3,
    matchDate description = Some (g1, g2, g3) /\
    getOwn MONTH_MAP (toLowerCase g1) = Some (month d) /\
    year d = parseInt10 g2 /\
    event d = trim g3 /\
    monthName d = nth (month d) MONTH_NAMES "".
Proof.
  unfold parseDateFromDescription, get.
  destruct (matchDate description) as [[[g1 g2] g3]|]; [|discriminate].
  destruct (getOwn MONTH_MAP (toLowerCase g1)) as [m|] eqn:Hown.
  - intros [= <-]. exists g1, g2, g3. cbn. auto.
  - destruct (inherited (toLowerCase g1)); discriminate.
Qed.

Lemma parseDate_range (description : string) (d : DateInfo) :
  parseDateFromDescription description = Some d ->
  month d < 12 /\
  monthName d = nth (month d) MONTH_NAMES "" /\
  In (monthName d) MONTH_NAMES /\
  exists z, year d = Fin z /\ (0 <= z <= 9999)%Z.
Proof.
  intros H. apply parseDate_inv in H as (g1 & g2 & g3 & Hm & Hown & Hy & _ & Hname).
  apply MONTH_MAP_value in Hown as [Hlt _].
  apply matchDate_sound in Hm as (_ & _ & _ & _ & _ & _ & [Hy4 Hyd] & _).
  split; [exact Hlt|]. split; [exact Hname|]. split.
  - rewrite Hname. apply nth_In. exact Hlt.
  - rewrite Hy. now apply parseInt10_year.
Qed.

(** X8.  A date read from a description has a month index from 0 to 11, the
    month name [MONTH_NAMES] holds at that index, and a year that is a whole
    number from 0 to 9999. *)
Theorem parseDateFromDescription_fields (description : string) (d : DateInfo) :
  parseDateFromDescription description = Some d ->
  month d < 12 /\
  monthName d = nth (month d) MONTH_NAMES "" /\
  In (monthName d) MONTH_NAMES /\
  exists z, year d = Fin z /\ (0 <= z <= 9999)%Z.
Proof. exact (parseDate_range description d). Qed.

Lemma parseDateFromDescription_fields_witness :
  7 < 12 /\
  "Aug" = nth 7 MONTH_NAMES "" /\
  In "Aug" MONTH_NAMES /\
  exists z, Fin 2024 = Fin z /\ (0 <= z <= 9999)%Z.
Proof.
  exact (parseDateFromDescription_fields "aUG  2024- First Lab Lunch"
           {| year := Fin 2024; month := 7; monthName := "Aug";
              event := "First Lab Lunch" |} eq_refl).
Defined.

Lemma dropWhile_append_all (p : ascii -> bool) (u s : string) :
  allChars p u = true -> dropWhile p (u ++ s) = dropWhile p s.
Proof.
  induction u as [|c u IH]; simpl; [reflexivity|].
  intros H. apply andb_prop in H as [Hc Hu]. now rewrite Hc, (IH Hu).
Qed.

(** X9.  A date is read only from a description of the form of the pattern:
    three letters, white space, four digits, optional white space, a hyphen,
    optional white space, and a text that is not empty and holds no line
    terminator; the month is what [MONTH_MAP] holds for the three letters in
    lower case, the year is the number of the four digits, and the event is
    the text, trimmed. *)
Theorem parseDateFromDescription_shape (description : string) (d : DateInfo) :
  parseDateFromDescription description = Some d ->
  exists mon w1 yr w2 w3 ev,
    description = (mon ++ w1 ++ yr ++ w2 ++ "-" ++ w3 ++ ev)%string /\
    (String.length mon = 3 /\ allChars isAlpha mon = true) /\
    (w1 <> EmptyString /\ allChars isWhiteSpace w1 = true) /\
    (String.length yr = 4 /\ allChars isDigit yr = true) /\
    allChars isWhiteSpace w2 = true /\
    allChars isWhiteSpace w3 = true /\
    eventGroup ev = true /\
    getOwn MONTH_MAP (toLowerCase mon) = Some (month d) /\
    year d = parseInt10 yr /\
    event d = trim ev.
Proof.
  intros H. apply parseDate_inv in H as (g1 & g2 & g3 & Hm & Hown & Hy & He & _).
  apply matchDate_sound in Hm as (w1 & w2 & w3 & Hd & H1 & H2 & H3 & H4 & H5 & H6).
  exists g1, w1, g2, w2, w3, g3. tauto.
Qed.

Lemma parseDateFromDescription_shape_witness :
  exists mon w1 yr w2 w3 ev,
    "Aug 2024 - First Lab Lunch" = (mon ++ w1 ++ yr ++ w2 ++ "-" ++ w3 ++ ev)%string /\
    (String.length mon = 3 /\ allChars isAlpha mon = true) /\
    (w1 <> EmptyString /\ allChars isWhiteSpace w1 = true) /\
    (String.length yr = 4 /\ allChars isDigit yr = true) /\
    allChars isWhiteSpace w2 = true /\
    allChars isWhiteSpace w3 = true /\
    eventGroup ev = true /\
    getOwn MONTH_MAP (toLowerCase mon) = Some 7 /\
    Fin 2024 = parseInt10 yr /\
    "First Lab Lunch" = trim ev.
Proof.
  exact (parseDateFromDescription_shape "Aug 2024 - First Lab Lunch"
           {| year := Fin 2024; month := 7; monthName := "Aug";
              event := "First Lab Lunch" |} eq_refl).
Defined.

(** X10.  Conversely, every description of that form whose three letters are,
    in lower case, a key of [MONTH_MAP] gives a date, with that month, that
    year and that event. *)
Theorem parseDateFromDescription_accepts (mon w1 yr w2 w3 ev : string) (m : nat) :
  String.length mon = 3 -> allChars isAlpha mon = true ->
  w1 <> EmptyString -> allChars isWhiteSpace w1 = true ->
  String.length yr = 4 -> allChars isDigit yr = true ->
  allChars isWhiteSpace w2 = true ->
  allChars isWhiteSpace w3 = true ->
  eventGroup ev = true ->
  getOwn MONTH_MAP (toLowerCase mon) = Some m ->
  parseDateFromDescription (mon ++ w1 ++ yr ++ w2 ++ "-" ++ w3 ++ ev) =
    Some {| year := parseInt10 yr; month := m;
            monthName := nth m MONTH_NAMES ""; event := trim ev |}.
Proof.
  intros Hm3 Hm Hw1ne Hw1 Hy4 Hy Hw2 Hw3 Hev Hown.
  destruct (matchDate_complete mon w1 yr w2 w3 ev Hm3 Hm Hw1ne Hw1 Hy4 Hy Hw2 Hw3 Hev)
    as (u & g3 & Hmatch & -> & Hu).
  rewrite (parseDate_known_month _ _ _ _ m Hmatch Hown).
  unfold trim. now rewrite (dropWhile_append_all isWhiteSpace u g3 Hu).
Qed.

Lemma parseDateFromDescription_accepts_witness :
  parseDateFromDescription ("dEc" ++ "  " ++ "2025" ++ "" ++ "-" ++ " " ++ " Dinner ") =
    Some {| year := parseInt10 "2025"; month := 11;
            monthName := nth 11 MONTH_NAMES ""; event := trim " Dinner " |}.
Proof.
  exact (parseDateFromDescription_accepts "dEc" "  " "2025" "" " " " Dinner " 11
           eq_refl eq_refl ltac:(discriminate) eq_refl eq_refl eq_refl
           eq_refl eq_refl eq_refl eq_refl).
Defined.

End DateFields.

Section TimelineKeys.

Lemma addEntry_wellKeyed (grouped : Timeline) (entry : TimelineEntry) :
  wellKeyed grouped -> fromDescription entry -> wellKeyed (addEntry grouped entry).
Proof.
  intros Hwf Hentry. rewrite addEntry_eq. cbv zeta.
  set (ye := year (dateInfo entry)). set (me := month (dateInfo entry)).
  set (months := orEmpty (lookup Number_eqb grouped ye)).
  set (items := orEmpty (lookup Nat.eqb months me)).
  assert (Hmonths : forall m its, In (m, its) months ->
            its <> [] /\
            forall e, In e its ->
                      year (dateInfo e) = ye /\ month (dateInfo e) = m /\ fromDescription e).
  { unfold months. destruct (lookup Number_eqb grouped ye) as [ms|] eqn:E; [|contradiction].
    apply (lookup_In Number_eqb Number_eqb_eq) in E.
    exact (proj2 (Hwf ye ms E)). }
  assert (Hitems : forall e, In e items ->
            year (dateInfo e) = ye /\ month (dateInfo e) = me /\ fromDescription e).
  { unfold items. destruct (lookup Nat.eqb months me) as [its|] eqn:E; [|contradiction].
    apply (lookup_In Nat.eqb Nat.eqb_eq) in E.
    exact (proj2 (Hmonths me its E)). }
  intros y ms Hin.
  destruct (In_update Number_eqb Number_eqb_eq _ _ _ _ Hin) as [Heq|Hold];
    [|exact (Hwf y ms Hold)].
  injection Heq as -> ->. clear Hin.
  split; [apply update_not_nil|].
  intros m its Hin.
  destruct (In_update Nat.eqb Nat.eqb_eq _ _ _ _ Hin) as [Heq|Hold];
    [|exact (Hmonths m its Hold)].
  injection Heq as -> ->. clear Hin.
  split; [now destruct items|].
  intros e He. apply in_app_iff in He as [He|[<-|[]]]; [exact (Hitems e He)|].
  split; [reflexivity|]. split; [reflexivity | exact Hentry].
Qed.

Lemma fold_wellKeyed (images : list string) (grouped : Timeline) :
  wellKeyed grouped ->
  wellKeyed
    (fold_left
       (fun grouped filename =>
          match parseFilename filename with
          | Rejected _ => grouped
          | Parsed parsed =>
              match parseDateFromDescription (description parsed) with
              | None => grouped
              | Some dateInfo =>
                  addEntry grouped {| parsed := parsed; dateInfo := dateInfo |}
              end
          end) images grouped).
Proof.
  revert grouped. induction images as [|f images IH]; intros grouped Hwf; simpl;
    [exact Hwf|].
  apply IH. destruct (parseFilename f) as [p|w]; [|exact Hwf].
  destruct (parseDateFromDescription (description p)) as [d|] eqn:Hd; [|exact Hwf].
  apply addEntry_wellKeyed; [exact Hwf | exact Hd].
Qed.

Lemma groupByYearMonth_wellKeyed (images : list string) :
  wellKeyed (groupByYearMonth images).
Proof. apply fold_wellKeyed. intros y months []. Qed.

(** X11.  The timeline view has no key without content: a year it holds has
    a month, a month it holds has an entry.  Its year keys are whole numbers
    from 0 to 9999 and its month keys are below 12. *)
Theorem groupByYearMonth_keys (images : list string) (y : Number) (months : Months) :
  lookup Number_eqb (groupByYearMonth images) y = Some months ->
  months <> [] /\
  (exists z, y = Fin z /\ (0 <= z <= 9999)%Z) /\
  forall m items,
    lookup Nat.eqb months m = Some items -> items <> [] /\ m < 12.
Proof.
  intros Hy. apply (lookup_In Number_eqb Number_eqb_eq) in Hy.
  destruct (groupByYearMonth_wellKeyed images y months Hy) as [Hne Hmonths].
  split; [exact Hne|]. split.
  - destruct months as [|[m items] months']; [contradiction|].
    destruct (Hmonths m items (or_introl eq_refl)) as [Hitems He].
    destruct items as [|e items]; [contradiction|].
    destruct (He e (or_introl eq_refl)) as (<- & _ & Hd).
    exact (proj2 (proj2 (proj2 (parseDate_range _ _ Hd)))).
  - intros m items Hm. apply (lookup_In Nat.eqb Nat.eqb_eq) in Hm.
    destruct (Hmonths m items Hm) as [Hitems He]. split; [exact Hitems|].
    destruct items as [|e items]; [contradiction|].
    destruct (He e (or_introl eq_refl)) as (_ & <- & Hd).
    exact (proj1 (parseDate_range _ _ Hd)).
Qed.

Lemma groupByYearMonth_keys_witness :
  [ (7, [ {| parsed := {| filename := "lablife_01_Aug 2024 - First Lab Lunch.jpg";
                          category := "lablife"; order := Fin 1;
                          description := "Aug 2024 - First Lab Lunch" |};
             dateInfo := {| year := Fin 2024; month := 7; monthName := "Aug";
                            event := "First Lab Lunch" |} |} ]) ] <> [] /\
  (exists z, Fin 2024 = Fin z /\ (0 <= z <= 9999)%Z) /\
  forall m items,
    lookup Nat.eqb
      [ (7, [ {| parsed := {| filename := "lablife_01_Aug 2024 - First Lab Lunch.jpg";
                              category := "lablife"; order := Fin 1;
                              description := "Aug 2024 - First Lab Lunch" |};
                 dateInfo := {| year := Fin 2024; month := 7; monthName := "Aug";
                                event := "First Lab Lunch" |} |} ]) ] m = Some items ->
    items <> [] /\ m < 12.
Proof.
  exact (groupByYearMonth_keys mixed (Fin 2024) _ eq_refl).
Defined.

End TimelineKeys.

(** ** The markup: numbers as text *)

Section Decimal.

Lemma digitsValue_acc (s : string) (acc : Z) :
  digitsValue acc s = (acc * 10 ^ Z.of_nat (String.length s) + digitsValue 0 s)%Z.
Proof.
  revert acc. induction s as [|c s IH]; intros acc; cbn [digitsValue String.length].
  - simpl. lia.
  - rewrite (IH (10 * acc + digitValue c)%Z), (IH (10 * 0 + digitValue c)%Z).
    rewrite Nat2Z.inj_succ, Z.pow_succ_r by lia. ring.
Qed.

Lemma digitChar_code (d : N) : (d < 10)%N -> code (digitChar d) = (48 + d)%N.
Proof.
  intros Hd. unfold code, digitChar. apply N_ascii_embedding. lia.
Qed.

Lemma digitChar_value (d : N) : (d < 10)%N -> digitValue (digitChar d) = Z.of_N d.
Proof.
  intros Hd. unfold digitValue. rewrite (digitChar_code d Hd). f_equal. lia.
Qed.

Lemma digitChar_isDigit (d : N) : (d < 10)%N -> isDigit (digitChar d) = true.
Proof.
  intros Hd. unfold isDigit, inRange. rewrite (digitChar_code d Hd).
  apply andb_true_intro. split; apply N.leb_le; lia.
Qed.

Lemma decimalDigits_spec (fuel : nat) (n : N) (acc : string) :
  (n < 2 ^ N.of_nat fuel)%N ->
  allChars isDigit acc = true ->
  allChars isDigit (decimalDigits fuel n acc) = true /\
  digitsValue 0 (decimalDigits fuel n acc) =
    (Z.of_N n * 10 ^ Z.of_nat (String.length acc) + digitsValue 0 acc)%Z.
Proof.
  revert n acc. induction fuel as [|fuel IH]; intros n acc Hn Hacc.
  - simpl in Hn. assert (n = 0%N) by lia. subst n. simpl. split; [exact Hacc | lia].
  - cbn [decimalDigits].
    assert (Hd : (n mod 10 < 10)%N) by (apply N.mod_lt; discriminate).
    assert (Hacc' : allChars isDigit (String (digitChar (n mod 10)) acc) = true).
    { simpl. now rewrite (digitChar_isDigit _ Hd), Hacc. }
    assert (Hval : digitsValue 0 (String (digitChar (n mod 10)) acc) =
                   (Z.of_N (n mod 10) * 10 ^ Z.of_nat (String.length acc)
                    + digitsValue 0 acc)%Z).
    { cbn [digitsValue]. rewrite digitsValue_acc, (digitChar_value _ Hd). ring. }
    destruct (N.ltb_spec n 10) as [Hlt|Hge].
    + split; [exact Hacc'|]. rewrite Hval, N.mod_small by exact Hlt. reflexivity.
    + assert (Hdiv : (n / 10 < 2 ^ N.of_nat fuel)%N).
      { apply N.Div0.div_lt_upper_bound.
        rewrite Nat2N.inj_succ, N.pow_succ_r' in Hn. lia. }
      destruct (IH (n / 10)%N _ Hdiv Hacc') as [Hall Hrec].
      split; [exact Hall|]. rewrite Hrec, Hval.
      cbn [String.length]. rewrite Nat2Z.inj_succ, Z.pow_succ_r by lia.
      rewrite (N.div_mod n 10) at 3 by discriminate.
      rewrite N2Z.inj_add, N2Z.inj_mul. change (Z.of_N 10) with 10%Z. ring.
Qed.

Lemma decimalDigits_nonempty (fuel : nat) (n : N) (acc : string) :
  acc <> EmptyString \/ fuel <> 0 -> decimalDigits fuel n acc <> EmptyString.
Proof.
  revert n acc. induction fuel as [|fuel IH]; intros n acc H; cbn [decimalDigits].
  - destruct H as [H|H]; [exact H | contradiction].
  - destruct (n <? 10)%N; [discriminate|]. apply IH. left. discriminate.
Qed.

Lemma decimal_spec (n : N) :
  decimal n <> EmptyString /\
  allChars isDigit (decimal n) = true /\
  digitsValue 0 (decimal n) = Z.of_N n.
Proof.
  unfold decimal. split.
  - apply decimalDigits_nonempty. right. discriminate.
  - destruct (decimalDigits_spec (S (N.to_nat (N.size n))) n EmptyString) as [Hall Hval].
    + rewrite Nat2N.inj_succ, N2Nat.id, N.pow_succ_r'.
      pose proof (N.size_gt n). lia.
    + reflexivity.
    + split; [exact Hall|]. rewrite Hval. simpl. lia.
Qed.

(** A whole number from 0 up to 2^53 - 1, written out and read by [parseInt],
    is the number again. *)
Lemma parseInt10_toString (z : Z) :
  (0 <= z < 2 ^ 53)%Z -> parseInt10 (toString (Fin z)) = Fin z.
Proof.
  intros Hz. unfold toString.
  destruct (Z.ltb_spec z 0) as [Hneg|_]; [lia|].
  destruct (decimal_spec (Z.to_N z)) as (Hne & Hall & Hval).
  rewrite parseInt10_digits by assumption.
  rewrite Hval, Z2N.id by lia. apply ofInteger_small. lia.
Qed.

Lemma monthKey_toString (m : nat) : monthKey m = toString (Fin (Z.of_nat m)).
Proof.
  unfold monthKey, toString.
  destruct (Z.ltb_spec (Z.of_nat m) 0) as [Hneg|_]; [lia|].
  f_equal. lia.
Qed.

End Decimal.

(** ** The markup: the timeline *)


Section DictKeys.
Context {K A : Type} (eqb : K -> K -> bool).
Hypothesis eqb_eq : forall a b, eqb a b = true <-> a = b.

Lemma lookup_keys (o : Dict K A) (k : K) :
  In k (map fst o) <-> lookup eqb o k <> None.
Proof.
  induction o as [|[k0 v0] o IH]; simpl; [tauto|].
  destruct (eqb k0 k) eqn:E.
  - apply eqb_eq in E. split; [discriminate | tauto].
  - split.
    + intros [->|H]; [|now apply IH].
      rewrite (proj2 (eqb_eq k k) eq_refl) in E. discriminate.
    + intros H. right. now apply IH.
Qed.

Lemma keys_update (o : Dict K A) (k : K) (v : A) :
  map fst (update eqb o k v) =
  match lookup eqb o k with
  | Some _ => map fst o
  | None => map fst o ++ [k]
  end.
Proof.
  induction o as [|[k0 v0] o IH]; simpl; [reflexivity|].
  destruct (eqb k0 k) eqn:E; simpl; [reflexivity|].
  rewrite IH. now destruct (lookup eqb o k).
Qed.

Lemma NoDup_update (o : Dict K A) (k : K) (v : A) :
  NoDup (map fst o) -> NoDup (map fst (update eqb o k v)).
Proof.
  intros Hnd. rewrite keys_update.
  destruct (lookup eqb o k) eqn:E; [exact Hnd|].
  apply NoDup_app; [exact Hnd | repeat constructor; intros [] |].
  intros x Hx [<-|[]]. apply lookup_keys in Hx. contradiction.
Qed.

Lemma Forall_update (P : K * A -> Prop) (o : Dict K A) (k : K) (v : A) :
  Forall P o -> P (k, v) -> Forall P (update eqb o k v).
Proof.
  intros Ho Hkv. rewrite Forall_forall in *. intros kv Hin.
  destruct (In_update eqb eqb_eq o k v kv Hin) as [->|Hold]; auto.
Qed.

End DictKeys.

Section ReadKey.
Context {K A : Type} (show : K -> string).

Lemma readKey_found (o : Dict K A) (k : K) (n : Number) :
  In k (map fst o) -> show k = toString n -> readKey show o n <> None.
Proof.
  intros Hin Hshow. induction o as [|[k0 v0] o IH]; simpl in *; [contradiction|].
  destruct (String.eqb (show k0) (toString n)) eqn:E; [discriminate|].
  destruct Hin as [->|Hin]; [|exact (IH Hin)].
  rewrite Hshow, String.eqb_refl in E. discriminate.
Qed.

Lemma readKey_In (o : Dict K A) (n : Number) (v : A) :
  readKey show o n = Some v -> exists k, In (k, v) o.
Proof.
  induction o as [|[k0 v0] o IH]; simpl; [discriminate|].
  destruct (String.eqb (show k0) (toString n)).
  - intros [= ->]. exists k0. now left.
  - intros H. destruct (IH H) as [k Hk]. exists k. now right.
Qed.

End ReadKey.

Section TimelineMarkup.

Lemma addEntry_uniqueKeys (grouped : Timeline) (entry : TimelineEntry) :
  uniqueKeys grouped -> uniqueKeys (addEntry grouped entry).
Proof.
  intros [Hyears Hmonths]. rewrite addEntry_eq. cbv zeta. split.
  - now apply (NoDup_update Number_eqb Number_eqb_eq).
  - apply (Forall_update Number_eqb Number_eqb_eq); [exact Hmonths|].
    cbn [snd]. apply (NoDup_update Nat.eqb Nat.eqb_eq).
    destruct (lookup Number_eqb grouped (year (dateInfo entry))) as [ms|] eqn:E;
      cbn [orEmpty]; [|constructor].
    apply (lookup_In Number_eqb Number_eqb_eq) in E.
    rewrite Forall_forall in Hmonths. exact (Hmonths _ E).
Qed.

Lemma groupByYearMonth_uniqueKeys (images : list string) :
  uniqueKeys (groupByYearMonth images).
Proof.
  unfold groupByYearMonth.
  assert (H : uniqueKeys []) by (split; constructor).
  revert H. generalize (@nil (Number * Months)) as grouped.
  induction images as [|f images IH]; intros grouped H; simpl; [exact H|].
  apply IH. destruct (parseFilename f) as [p|w]; [|exact H].
  destruct (parseDateFromDescription (description p)) as [d|]; [|exact H].
  now apply addEntry_uniqueKeys.
Qed.

Lemma wellKeyed_year (grouped : Timeline) (y : Number) (months : Months) :
  wellKeyed grouped -> In (y, months) grouped ->
  exists z, y = Fin z /\ (0 <= z <= 9999)%Z.
Proof.
  intros Hwf Hin. destruct (Hwf y months Hin) as [Hne Hm].
  destruct months as [|[m items] months']; [contradiction|].
  destruct (Hm m items (or_introl eq_refl)) as [Hitems He].
  destruct items as [|e items]; [contradiction|].
  destruct (He e (or_introl eq_refl)) as (<- & _ & Hd).
  exact (proj2 (proj2 (proj2 (parseDate_range _ _ Hd)))).
Qed.

Lemma wellKeyed_month (grouped : Timeline) (y : Number) (months : Months)
      (m : nat) (items : list TimelineEntry) :
  wellKeyed grouped -> In (y, months) grouped -> In (m, items) months -> m < 12.
Proof.
  intros Hwf Hin Hm. destruct (Hwf y months Hin) as [_ Hmonths].
  destruct (Hmonths m items Hm) as [Hitems He].
  destruct items as [|e items]; [contradiction|].
  destruct (He e (or_introl eq_refl)) as (_ & <- & Hd).
  exact (proj1 (parseDate_range _ _ Hd)).
Qed.

Lemma In_keys {K A : Type} (o : Dict K A) (k : K) :
  In k (map fst o) -> exists v, In (k, v) o.
Proof.
  intros H. apply in_map_iff in H as ([k' v] & <- & Hin). now exists v.
Qed.

(** The keys of the timeline come back from [parseInt] as they were. *)
Lemma sortedYears_keys (grouped : Timeline) :
  wellKeyed grouped -> sortedYears grouped = sort sub (map fst grouped).
Proof.
  intros Hwf. unfold sortedYears. f_equal.
  rewrite <- (map_id (map fst grouped)) at 2. apply map_ext_in.
  intros y Hy. apply In_keys in Hy as [months Hin].
  destruct (wellKeyed_year grouped y months Hwf Hin) as (z & -> & Hz).
  apply parseInt10_toString. change (2 ^ 53)%Z with 9007199254740992%Z. lia.
Qed.

Lemma sortedMonths_keys (grouped : Timeline) (y : Number) (months : Months) :
  wellKeyed grouped -> In (y, months) grouped ->
  sortedMonths months = sort sub (map ofNat (map fst months)).
Proof.
  intros Hwf Hin. unfold sortedMonths. f_equal. apply map_ext_in.
  intros m Hm. apply In_keys in Hm as [items Hm].
  pose proof (wellKeyed_month grouped y months m items Hwf Hin Hm) as Hlt.
  rewrite monthKey_toString. apply parseInt10_toString.
  change (2 ^ 53)%Z with 9007199254740992%Z. lia.
Qed.

Lemma ofNat_injective (a b : nat) : ofNat a = ofNat b -> a = b.
Proof. unfold ofNat. intros [= H]. lia. Qed.

Lemma NoDup_map_ofNat (l : list nat) : NoDup l -> NoDup (map ofNat l).
Proof.
  induction 1 as [|x l Hx Hl IH]; simpl; constructor; [|exact IH].
  intros H. apply in_map_iff in H as (x' & Heq & Hin).
  apply ofNat_injective in Heq. now subst x'.
Qed.

Lemma bucket_nonempty_year (images : list string) (y : Number) :
  lookup Number_eqb (groupByYearMonth images) y <> None <->
  exists e, In e (dated images) /\ year (dateInfo e) = y.
Proof.
  split.
  - destruct (lookup Number_eqb (groupByYearMonth images) y) as [months|] eqn:Ey;
      [intros _ | intros H; now elim H].
    pose proof (lookup_In Number_eqb Number_eqb_eq _ _ _ Ey) as Hin.
    destruct (groupByYearMonth_wellKeyed images y months Hin) as [Hne Hm].
    destruct months as [|[m items] months']; [contradiction|].
    destruct (Hm m items (or_introl eq_refl)) as [Hitems _].
    pose proof (bucket_dated images y m) as Hb.
    unfold bucket in Hb. rewrite Ey in Hb. cbn [lookup] in Hb.
    rewrite Nat.eqb_refl in Hb.
    destruct items as [|e items]; [contradiction|].
    assert (He : In e (filter (inMonth y m) (dated images))) by (rewrite <- Hb; now left).
    apply filter_In in He as [He Hym]. exists e. split; [exact He|].
    unfold inMonth in Hym. apply andb_prop in Hym as [Hy _].
    now apply Number_eqb_eq.
  - intros (e & He & <-) Hnone.
    pose proof (bucket_dated images (year (dateInfo e)) (month (dateInfo e))) as Hb.
    unfold bucket in Hb. rewrite Hnone in Hb.
    assert (Hin : In e (filter (inMonth (year (dateInfo e)) (month (dateInfo e)))
                               (dated images))).
    { apply filter_In. split; [exact He|]. unfold inMonth.
      now rewrite (proj2 (Number_eqb_eq _ _) eq_refl), Nat.eqb_refl. }
    rewrite <- Hb in Hin. contradiction.
Qed.

Lemma bucket_nonempty_month (images : list string) (y : Number) (months : Months) (m : nat) :
  lookup Number_eqb (groupByYearMonth images) y = Some months ->
  (lookup Nat.eqb months m <> None <->
   exists e, In e (dated images) /\ year (dateInfo e) = y /\ month (dateInfo e) = m).
Proof.
  intros Ey.
  pose proof (lookup_In Number_eqb Number_eqb_eq _ _ _ Ey) as Hin.
  destruct (groupByYearMonth_wellKeyed images y months Hin) as [_ Hm].
  pose proof (bucket_dated images y m) as Hb.
  unfold bucket in Hb. rewrite Ey in Hb.
  split.
  - destruct (lookup Nat.eqb months m) as [items|] eqn:Em;
      [intros _ | intros H; now elim H].
    apply (lookup_In Nat.eqb Nat.eqb_eq) in Em.
    destruct (Hm m items Em) as [Hitems _].
    destruct items as [|e items]; [contradiction|].
    assert (He : In e (filter (inMonth y m) (dated images))) by (rewrite <- Hb; now left).
    apply filter_In in He as [He Hym]. exists e. split; [exact He|].
    unfold inMonth in Hym. apply andb_prop in Hym as [Hy Hmo].
    split; [now apply Number_eqb_eq | now apply Nat.eqb_eq].
  - intros (e & He & Hy & Hmo) Hnone. rewrite Hnone in Hb.
    assert (Hin' : In e (filter (inMonth y m) (dated images))).
    { apply filter_In. split; [exact He|]. unfold inMonth.
      now rewrite (proj2 (Number_eqb_eq _ _) Hy), (proj2 (Nat.eqb_eq _ _) Hmo). }
    rewrite <- Hb in Hin'. contradiction.
Qed.

(** X12.  The timeline is laid out in ascending order: the years
    [generateTimelineHTML] goes through are the years of the dated entries,
    each once and strictly ascending, and so are, within a year, the months
    that [generateTimelineYearHTML] goes through. *)
Theorem timeline_order (images : list string) :
  let grouped := groupByYearMonth images in
  (increasing (sortedYears grouped) /\
   forall y, In y (sortedYears grouped) <->
             exists e, In e (dated images) /\ year (dateInfo e) = y) /\
  forall y months,
    lookup Number_eqb grouped y = Some months ->
    increasing (sortedMonths months) /\
    forall m, In (ofNat m) (sortedMonths months) <->
              exists e, In e (dated images) /\
                        year (dateInfo e) = y /\ month (dateInfo e) = m.
Proof.
  intros grouped.
  pose proof (groupByYearMonth_wellKeyed images) as Hwf.
  destruct (groupByYearMonth_uniqueKeys images) as [Hyears Hmonths].
  fold grouped in Hwf, Hyears, Hmonths.
  split; [split|].
  - rewrite (sortedYears_keys grouped Hwf). apply sort_increasing; [|exact Hyears].
    apply Forall_forall. intros y Hy. apply In_keys in Hy as [months Hin].
    destruct (wellKeyed_year grouped y months Hwf Hin) as (z & -> & _). discriminate.
  - intros y. rewrite (sortedYears_keys grouped Hwf).
    rewrite <- (Permutation_in' eq_refl (sort_perm sub _)).
    rewrite (lookup_keys Number_eqb Number_eqb_eq). apply bucket_nonempty_year.
  - intros y months Ey.
    pose proof (lookup_In Number_eqb Number_eqb_eq _ _ _ Ey) as Hin.
    rewrite (sortedMonths_keys grouped y months Hwf Hin). split.
    + apply sort_increasing.
      * apply Forall_forall. intros n Hn. apply in_map_iff in Hn as (m & <- & _).
        discriminate.
      * apply NoDup_map_ofNat.
        rewrite Forall_forall in Hmonths. exact (Hmonths _ Hin).
    + intros m. rewrite <- (Permutation_in' eq_refl (sort_perm sub _)).
      rewrite <- (bucket_nonempty_month images y months m Ey).
      rewrite <- (lookup_keys Nat.eqb Nat.eqb_eq). split.
      * intros H. apply in_map_iff in H as (m' & Heq & Hm').
        apply ofNat_injective in Heq. now subst m'.
      * intros H. now apply in_map.
Qed.

End TimelineMarkup.

Section TimelineTotal.

Lemma monthsHTMLFrom_normal (months : Months) (sorted : list Number) (index : nat) :
  (forall month, In month sorted -> readKey monthKey months month <> None) ->
  exists html, monthsHTMLFrom index months sorted = Normal html.
Proof.
  revert index. induction sorted as [|month rest IH]; intros index Hall; simpl.
  - now exists EmptyString.
  - destruct (readKey monthKey months month) as [items|] eqn:E;
      [|now elim (Hall month (or_introl eq_refl))].
    destruct (IH (S index)) as [html ->]; [intros mo Hmo; apply Hall; now right|].
    eexists. reflexivity.
Qed.

Lemma generateTimelineYearHTML_normal (grouped : Timeline) (y year : Number) (months : Months) :
  wellKeyed grouped -> In (y, months) grouped ->
  exists html, generateTimelineYearHTML year months = Normal html.
Proof.
  intros Hwf Hin. unfold generateTimelineYearHTML.
  destruct (monthsHTMLFrom_normal months (sortedMonths months) 0) as [html ->];
    [|eexists; reflexivity].
  intros month Hmonth. rewrite (sortedMonths_keys grouped y months Hwf Hin) in Hmonth.
  apply (Permutation_in _ (Permutation_sym (sort_perm sub _))) in Hmonth.
  apply in_map_iff in Hmonth as (m & <- & Hm).
  apply (readKey_found monthKey months m); [exact Hm | apply monthKey_toString].
Qed.

Lemma yearsHTMLOf_normal (grouped : Timeline) (sorted : list Number) :
  wellKeyed grouped ->
  (forall year, In year sorted -> In year (map fst grouped)) ->
  exists html, yearsHTMLOf grouped sorted = Normal html.
Proof.
  intros Hwf. induction sorted as [|year rest IH]; intros Hall; simpl.
  - now exists EmptyString.
  - destruct (readKey toString grouped year) as [months|] eqn:E.
    + destruct (readKey_In toString grouped year months E) as [k Hk].
      destruct (generateTimelineYearHTML_normal grouped k year months Hwf Hk) as [html ->].
      destruct IH as [htmls ->]; [intros y Hy; apply Hall; now right|].
      eexists. reflexivity.
    + exfalso. revert E.
      apply (readKey_found toString grouped year);
        [apply Hall; now left | reflexivity].
Qed.

Lemma groupByYearMonth_nil (images : list string) :
  groupByYearMonth images = [] <-> dated images = [].
Proof.
  split.
  - intros Hnil. destruct (dated images) as [|e rest] eqn:Hd; [reflexivity|].
    exfalso.
    assert (He : exists e', In e' (dated images) /\ year (dateInfo e') = year (dateInfo e))
      by (exists e; rewrite Hd; split; [now left | reflexivity]).
    apply bucket_nonempty_year in He. rewrite Hnil in He. now apply He.
  - intros Hd. destruct (groupByYearMonth images) as [|[y months] rest] eqn:Hg;
      [reflexivity|].
    exfalso.
    assert (Hy : lookup Number_eqb (groupByYearMonth images) y <> None).
    { rewrite Hg. cbn [lookup]. rewrite (proj2 (Number_eqb_eq y y) eq_refl). discriminate. }
    apply bucket_nonempty_year in Hy as (e & He & _). rewrite Hd in He. contradiction.
Qed.

Lemma generateTimelineHTML_normal (images : list string) :
  exists html, generateTimelineHTML (groupByYearMonth images) = Normal html.
Proof.
  pose proof (groupByYearMonth_wellKeyed images) as Hwf.
  unfold generateTimelineHTML. cbv zeta. rewrite (sortedYears_keys _ Hwf).
  destruct (yearsHTMLOf_normal (groupByYearMonth images)
              (sort sub (map fst (groupByYearMonth images))) Hwf) as [yearsHTML ->].
  { intros y Hy. exact (Permutation_in _ (Permutation_sym (sort_perm sub _)) Hy). }
  destruct (sort sub (map fst (groupByYearMonth images))); eexists; reflexivity.
Qed.

(** X13.  Over the timeline view of any list [generateTimelineHTML] returns
    its markup without a throw: every year and month it reads is there.  The
    markup is the empty string exactly when no filename of the list is parsed
    with a date. *)
Theorem generateTimelineHTML_total (images : list string) :
  exists html,
    generateTimelineHTML (groupByYearMonth images) = Normal html /\
    (html = EmptyString <-> dated images = []).
Proof.
  pose proof (groupByYearMonth_wellKeyed images) as Hwf.
  pose proof (groupByYearMonth_nil images) as Hnil.
  unfold generateTimelineHTML. cbv zeta.
  rewrite (sortedYears_keys _ Hwf).
  destruct (yearsHTMLOf_normal (groupByYearMonth images)
              (sort sub (map fst (groupByYearMonth images))) Hwf) as [yearsHTML Hyears].
  { intros y Hy. exact (Permutation_in _ (Permutation_sym (sort_perm sub _)) Hy). }
  rewrite Hyears.
  pose proof (sort_perm sub (map fst (groupByYearMonth images))) as Hperm.
  destruct (sort sub (map fst (groupByYearMonth images))) as [|y sorted].
  - exists EmptyString. split; [reflexivity|].
    apply Permutation_sym, Permutation_nil, map_eq_nil in Hperm.
    split; [intros _; now apply Hnil | reflexivity].
  - eexists. split; [reflexivity|]. split; [discriminate|].
    intros Hd. apply Hnil in Hd. rewrite Hd in Hperm.
    apply Permutation_nil in Hperm. discriminate.
Qed.

End TimelineTotal.

(** ** The markup: navigation and sections *)

Section Navigation.

Lemma sectionTemplate_not_empty (anchor title about itemsHTML : string) :
  sectionTemplate anchor title about itemsHTML <> EmptyString.
Proof. discriminate. Qed.

Lemma generateSectionHTML_category (cat : string) (config : Config.t)
      (items : list ParsedInfo) :
  In (cat, config) CATEGORIES ->
  exists html,
    generateSectionHTML cat items = Normal html /\
    (html <> EmptyString <-> items <> []).
Proof.
  intros Hin. cbn [CATEGORIES In] in Hin.
  destruct items as [|p items].
  - exists EmptyString. split; [reflexivity|]. tauto.
  - repeat (destruct Hin as [[= <- <-]|Hin];
            [eexists; split; [reflexivity|]; split; intros _; discriminate|]).
    contradiction.
Qed.

Lemma quickNavLinks_four (l1 l2 l3 l4 : list ParsedInfo) (link : string) :
  In link (quickNavLinks [ ("conference", l1); ("activity", l2);
                           ("lablife", l3); ("campus", l4) ]) <->
  In link (linkIf l1 CATEGORIES 0 ++ linkIf l2 CATEGORIES 1 ++
           linkIf l3 CATEGORIES 2 ++ linkIf l4 CATEGORIES 3 ++ [timelineLink]).
Proof.
  destruct l1, l2, l3, l4; reflexivity.
Qed.

Lemma links_distinct :
  NoDup (map (fun kv => categoryLink (snd kv)) CATEGORIES ++ [timelineLink]).
Proof.
  vm_compute. repeat constructor; simpl; intuition discriminate.
Qed.

Lemma quickNavLinks_category (l1 l2 l3 l4 : list ParsedInfo) (i : nat)
      (cat : string) (config : Config.t) :
  nth_error CATEGORIES i = Some (cat, config) ->
  In (categoryLink config)
     (quickNavLinks [ ("conference", l1); ("activity", l2);
                      ("lablife", l3); ("campus", l4) ]) <->
  nth i [l1; l2; l3; l4] [] <> [].
Proof.
  intros Hi. rewrite quickNavLinks_four.
  destruct i as [|[|[|[|i]]]]; cbn [nth_error CATEGORIES] in Hi;
    [injection Hi as <- <- ..|destruct i; discriminate Hi];
    destruct l1, l2, l3, l4; cbn [linkIf nth_error CATEGORIES app In nth];
    (split;
     [ intros H; repeat (destruct H as [H|H]; [try (vm_compute in H; discriminate H)|]);
       try contradiction; discriminate
     | intros H; try (now elim H); auto 10 ]).
Qed.

(** X14.  The quick navigation and the sections agree: over the category
    view of a list, [generateSectionHTML] returns markup for each category
    without a throw, the navigation holds the link of a category exactly when
    that markup is not empty, and this is when a filename of the list was
    parsed into the category.  The link to the timeline is always there. *)
Theorem quickNav_sections (images : list string) (g : Grouped) :
  groupByCategory images = Normal g ->
  In timelineLink (quickNavLinks g) /\
  forall cat config,
    In (cat, config) CATEGORIES ->
    exists items html,
      getOwn g cat = Some items /\
      generateSectionHTML cat items = Normal html /\
      (In (categoryLink config) (quickNavLinks g) <-> html <> EmptyString) /\
      (html <> EmptyString <-> exists p, In p (accepted images) /\ category p = cat).
Proof.
  intros Hg. rewrite groupByCategory_eq in Hg.
  destruct (categoriesKnown images); [|discriminate]. injection Hg as <-.
  split; [unfold quickNavLinks; apply in_or_app; right; now left|].
  intros cat config Hin.
  assert (Hcat : In cat (keys CATEGORIES)) by (apply (in_map fst) in Hin; exact Hin).
  exists (sort byOrder (filter (inCategory cat) (accepted images))).
  destruct (generateSectionHTML_category
              cat config (sort byOrder (filter (inCategory cat) (accepted images))) Hin)
    as (html & Hhtml & Hne).
  exists html. split; [exact (getOwn_grouped_key images cat Hcat)|].
  split; [exact Hhtml|]. split.
  - rewrite Hne. cbn [keys CATEGORIES map fst].
    destruct (In_nth_error _ _ Hin) as [i Hi].
    rewrite (quickNavLinks_category _ _ _ _ i cat config Hi).
    destruct i as [|[|[|[|i]]]]; cbn [nth_error CATEGORIES] in Hi;
      [injection Hi as <- <- ..|destruct i; discriminate Hi]; reflexivity.
  - rewrite Hne. split.
    + intros Hitems.
      destruct (sort byOrder (filter (inCategory cat) (accepted images)))
        as [|p rest] eqn:E; [now elim Hitems|].
      assert (Hp : In p (filter (inCategory cat) (accepted images))).
      { apply (Permutation_in _ (Permutation_sym (sort_perm byOrder _))).
        rewrite E. now left. }
      apply filter_In in Hp as [Hp Hc]. exists p. split; [exact Hp|].
      now apply String.eqb_eq.
    + intros (p & Hp & Hc) Hnil.
      assert (Hin' : In p (sort byOrder (filter (inCategory cat) (accepted images)))).
      { apply (Permutation_in _ (sort_perm byOrder _)).
        apply filter_In. split; [exact Hp|]. now apply String.eqb_eq. }
      rewrite Hnil in Hin'. contradiction.
Qed.

Lemma quickNav_sections_witness :
  In timelineLink (quickNavLinks tiedView) /\
  forall cat config,
    In (cat, config) CATEGORIES ->
    exists items html,
      getOwn tiedView cat = Some items /\
      generateSectionHTML cat items = Normal html /\
      (In (categoryLink config) (quickNavLinks tiedView) <-> html <> EmptyString) /\
      (html <> EmptyString <-> exists p, In p (accepted tied) /\ category p = cat).
Proof.
  exact (quickNav_sections tied tiedView eq_refl).
Defined.

End Navigation.

(** ** The markup: what is shown *)

Section Shown.

Lemma append_nil_r (s : string) : (s ++ "")%string = s.
Proof. induction s as [|c s IH]; simpl; [reflexivity | now rewrite IH]. Qed.

Lemma occursIn_refl (s : string) : occursIn s s.
Proof. exists EmptyString, EmptyString. simpl. now rewrite append_nil_r. Qed.

Lemma occursIn_trans (a b c : string) : occursIn a b -> occursIn b c -> occursIn a c.
Proof.
  intros (p & q & ->) (p' & q' & ->). exists (p' ++ p)%string, (q ++ q')%string.
  now rewrite !append_assoc.
Qed.

Lemma occursIn_left (a b c : string) : occursIn a b -> occursIn a (b ++ c).
Proof.
  intros (p & q & ->). exists p, (q ++ c)%string. now rewrite !append_assoc.
Qed.

Lemma occursIn_right (a b c : string) : occursIn a b -> occursIn a (c ++ b).
Proof.
  intros (p & q & ->). exists (c ++ p)%string, q. now rewrite !append_assoc.
Qed.

Lemma text_occurs (x : string) (parts : list string) :
  In x parts -> occursIn x (text parts).
Proof.
  induction parts as [|y parts IH]; simpl; [contradiction|].
  intros [->|H]; [apply occursIn_left, occursIn_refl | apply occursIn_right, IH, H].
Qed.

Lemma join_occurs (x : string) (l : list string) :
  In x l -> occursIn x (join "" l).
Proof.
  induction l as [|y l IH]; [contradiction|].
  intros Hin. destruct l as [|z l].
  - destruct Hin as [->|[]]. apply occursIn_refl.
  - change (join "" (y :: z :: l)) with (y ++ "" ++ join "" (z :: l))%string.
    destruct Hin as [->|Hin]; [apply occursIn_left, occursIn_refl|].
    apply occursIn_right. simpl append. exact (IH Hin).
Qed.

Lemma mapFrom_nth {A B : Type} (f : A -> nat -> B) (l : list A) (start i : nat) (x : A) :
  nth_error l i = Some x -> In (f x (start + i)) (mapFrom start f l).
Proof.
  revert start i. induction l as [|y l IH]; intros start [|i]; simpl; try discriminate.
  - intros [= ->]. rewrite Nat.add_0_r. now left.
  - intros H. right. rewrite Nat.add_succ_r. exact (IH (S start) i H).
Qed.

(** X15.  Every filename that is parsed is shown: over the category view of
    a list, the markup of the section of its category holds the markup of
    the item, made for the place the item has in the sorted sequence. *)
Theorem section_shows_item (images : list string) (g : Grouped)
        (name : string) (p : ParsedInfo) :
  groupByCategory images = Normal g ->
  In name images ->
  parseFilename name = Parsed p ->
  exists items html i,
    getOwn g (category p) = Some items /\
    generateSectionHTML (category p) items = Normal html /\
    nth_error items i = Some p /\
    occursIn (generateItemHTML p (category p) i) html.
Proof.
  intros Hg Hin Hp. rewrite groupByCategory_eq in Hg.
  destruct (categoriesKnown images) eqn:Hknown; [|discriminate]. injection Hg as <-.
  assert (Hacc : In p (accepted images)) by (apply accepted_In; eauto).
  assert (Hcat : isCategory (category p) = true).
  { pose proof (categoriesKnown_accepted images Hknown) as Hall.
    rewrite Forall_forall in Hall. exact (Hall p Hacc). }
  set (items := sort byOrder (filter (inCategory (category p)) (accepted images))).
  assert (Hitem : In p items).
  { apply (Permutation_in _ (sort_perm byOrder _)), filter_In.
    split; [exact Hacc | apply String.eqb_refl]. }
  destruct (In_nth_error _ _ Hitem) as [i Hi].
  assert (Hview : getOwn
                    (map (fun cat => (cat, sort byOrder
                                             (filter (inCategory cat) (accepted images))))
                         (keys CATEGORIES)) (category p) = Some items)
    by (apply getOwn_grouped_key, isCategory_key, Hcat).
  exists items. unfold generateSectionHTML, get.
  unfold isCategory in Hcat.
  destruct (getOwn CATEGORIES (category p)) as [config|] eqn:Hown; [|discriminate].
  clearbody items. destruct items as [|q rest]; [contradiction|].
  eexists. exists i.
  split; [exact Hview|]. split; [reflexivity|]. split; [exact Hi|].
  apply (occursIn_trans _
           (join "" (mapi (fun item index => generateItemHTML item (category p) index)
                          (q :: rest)))).
  - apply join_occurs. exact (mapFrom_nth _ _ 0 i p Hi).
  - apply text_occurs. member.
Qed.

Lemma section_shows_item_witness :
  exists items html i,
    getOwn tiedView "lablife" = Some items /\
    generateSectionHTML "lablife" items = Normal html /\
    nth_error items i = Some tiedX /\
    occursIn (generateItemHTML tiedX "lablife" i) html.
Proof.
  exact (section_shows_item tied tiedView "lablife_01_X.jpg" tiedX
           eq_refl (or_intror (or_introl eq_refl)) eq_refl).
Defined.

Lemma Normal_inj {A : Type} (a b : A) : @Normal A a = Normal b -> a = b.
Proof. now intros [= ->]. Qed.

Lemma dated_In (images : list string) (e : TimelineEntry) :
  In e (dated images) <->
  exists name, In name images /\
               parseFilename name = Parsed (parsed e) /\
               parseDateFromDescription (description (parsed e)) = Some (dateInfo e).
Proof.
  unfold dated. rewrite in_flat_map. split.
  - intros (name & Hin & He). exists name. split; [exact Hin|].
    destruct (parseFilename name) as [p|w]; [|contradiction].
    destruct (parseDateFromDescription (description p)) as [d|] eqn:Hd; [|contradiction].
    destruct He as [<-|[]]. cbn. auto.
  - intros (name & Hin & Hp & Hd). exists name. split; [exact Hin|].
    rewrite Hp, Hd. left. now destruct e.
Qed.

Lemma toString_injective (a b : Z) :
  (0 <= a < 2 ^ 53)%Z -> (0 <= b < 2 ^ 53)%Z ->
  toString (Fin a) = toString (Fin b) -> a = b.
Proof.
  intros Ha Hb H. apply (f_equal parseInt10) in H.
  rewrite !parseInt10_toString in H by assumption. now injection H.
Qed.

Lemma readKey_year (grouped : Timeline) (y : Number) :
  (forall k, In k (map fst grouped) -> exists z, k = Fin z /\ (0 <= z <= 9999)%Z) ->
  (exists z, y = Fin z /\ (0 <= z <= 9999)%Z) ->
  readKey toString grouped y = lookup Number_eqb grouped y.
Proof.
  intros Hkeys (b & -> & Hb).
  induction grouped as [|[k v] grouped IH]; [reflexivity|]. cbn [readKey lookup].
  destruct (Hkeys k (or_introl eq_refl)) as (a & -> & Ha).
  assert (Heq : String.eqb (toString (Fin a)) (toString (Fin b)) = Number_eqb (Fin a) (Fin b)).
  { cbn [Number_eqb]. destruct (Z.eqb_spec a b) as [->|Hne]; [apply String.eqb_refl|].
    apply String.eqb_neq. intros H. apply Hne.
    apply toString_injective; [| |exact H];
      change (2 ^ 53)%Z with 9007199254740992%Z; lia. }
  rewrite Heq. destruct (Number_eqb (Fin a) (Fin b)); [reflexivity|].
  apply IH. intros k Hk. apply Hkeys. now right.
Qed.

Lemma readKey_month (months : Months) (m : nat) :
  (forall k, In k (map fst months) -> k < 12) -> m < 12 ->
  readKey monthKey months (ofNat m) = lookup Nat.eqb months m.
Proof.
  intros Hkeys Hm.
  induction months as [|[k v] months IH]; [reflexivity|]. cbn [readKey lookup].
  pose proof (Hkeys k (or_introl eq_refl)) as Hk.
  assert (Heq : String.eqb (monthKey k) (toString (ofNat m)) = Nat.eqb k m).
  { destruct (Nat.eqb_spec k m) as [->|Hne].
    - rewrite monthKey_toString. apply String.eqb_refl.
    - apply String.eqb_neq. rewrite monthKey_toString. intros H. apply Hne.
      apply toString_injective in H;
        [lia | change (2 ^ 53)%Z with 9007199254740992%Z; lia ..]. }
  rewrite Heq. destruct (Nat.eqb k m); [reflexivity|].
  apply IH. intros k' Hk'. apply Hkeys. now right.
Qed.

Lemma month_shows_photo (month : Number) (items : list TimelineEntry) (index : nat)
      (e : TimelineEntry) :
  In e items ->
  occursIn (generateTimelinePhotoHTML e) (generateTimelineMonthHTML month items index).
Proof.
  intros He.
  apply (occursIn_trans _ (join "" (map generateTimelinePhotoHTML items))).
  - apply join_occurs. now apply in_map.
  - apply text_occurs. member.
Qed.

Lemma months_show_month (months : Months) (sorted : list Number) (index : nat)
      (html : string) (month : Number) (items : list TimelineEntry) :
  monthsHTMLFrom index months sorted = Normal html ->
  In month sorted ->
  readKey monthKey months month = Some items ->
  exists i, occursIn (generateTimelineMonthHTML month items i) html.
Proof.
  revert index html. induction sorted as [|mo rest IH]; intros index html; [contradiction|].
  cbn [monthsHTMLFrom].
  destruct (readKey monthKey months mo) as [its|] eqn:E; [|discriminate].
  destruct (monthsHTMLFrom (S index) months rest) as [h|] eqn:Erest; [|discriminate].
  intros Heq.
  assert (Hhtml : html = (generateTimelineMonthHTML mo its index ++ h)%string) by congruence.
  clear Heq. subst html. intros [->|Hin] Hread.
  - rewrite Hread in E. injection E as <-. exists index.
    exact (occursIn_left _ _ h (occursIn_refl _)).
  - destruct (IH (S index) h Erest Hin Hread) as [i Hi]. exists i.
    exact (occursIn_right _ _ _ Hi).
Qed.

Lemma year_shows_photo (year : Number) (months : Months) (html : string)
      (month : Number) (items : list TimelineEntry) (e : TimelineEntry) :
  generateTimelineYearHTML year months = Normal html ->
  In month (sortedMonths months) ->
  readKey monthKey months month = Some items ->
  In e items ->
  occursIn (generateTimelinePhotoHTML e) html.
Proof.
  unfold generateTimelineYearHTML.
  destruct (monthsHTMLFrom 0 months (sortedMonths months)) as [monthsHTML|] eqn:E;
    [|discriminate].
  intros Heq Hin Hread He. apply Normal_inj in Heq. subst html.
  destruct (months_show_month _ _ _ _ _ _ E Hin Hread) as [i Hi].
  apply (occursIn_trans _ monthsHTML).
  - exact (occursIn_trans _ _ _ (month_shows_photo month items i e He) Hi).
  - apply text_occurs. member.
Qed.

Lemma years_show_year (grouped : Timeline) (sorted : list Number) (htmls : string)
      (year : Number) (months : Months) (html : string) :
  yearsHTMLOf grouped sorted = Normal htmls ->
  In year sorted ->
  readKey toString grouped year = Some months ->
  generateTimelineYearHTML year months = Normal html ->
  occursIn html htmls.
Proof.
  revert htmls. induction sorted as [|y rest IH]; intros htmls; [contradiction|].
  cbn [yearsHTMLOf].
  destruct (readKey toString grouped y) as [ms|] eqn:E; [|discriminate].
  destruct (generateTimelineYearHTML y ms) as [h|] eqn:Eh; [|discriminate].
  destruct (yearsHTMLOf grouped rest) as [hs|] eqn:Ehs; [|discriminate].
  intros Heq. assert (Hhtmls : htmls = (h ++ hs)%string) by congruence.
  clear Heq. subst htmls. intros [->|Hin] Hread Hyear.
  - rewrite Hread in E. injection E as <-. rewrite Hyear in Eh. injection Eh as <-.
    exact (occursIn_left _ _ hs (occursIn_refl _)).
  - exact (occursIn_right _ _ _ (IH hs eq_refl Hin Hread Hyear)).
Qed.

(** X16.  Every filename that is parsed with a date is shown in the
    timeline: the markup [generateTimelineHTML] returns over the timeline
    view of the list holds the markup of its photo. *)
Theorem timeline_shows_entry (images : list string) (name : string)
        (p : ParsedInfo) (d : DateInfo) :
  In name images ->
  parseFilename name = Parsed p ->
  parseDateFromDescription (description p) = Some d ->
  exists html,
    generateTimelineHTML (groupByYearMonth images) = Normal html /\
    occursIn (generateTimelinePhotoHTML {| parsed := p; dateInfo := d |}) html.
Proof.
  intros Hin Hp Hd.
  set (e := {| parsed := p; dateInfo := d |}).
  set (grouped := groupByYearMonth images).
  assert (He : In e (dated images)) by (apply dated_In; exists name; cbn; auto).
  pose proof (groupByYearMonth_wellKeyed images) as Hwf. fold grouped in Hwf.
  (* the entry is in the sequence of its year and month *)
  pose proof (bucket_dated images (year d) (month d)) as Hb.
  fold grouped in Hb. unfold bucket in Hb.
  assert (Hfilter : In e (filter (inMonth (year d) (month d)) (dated images))).
  { apply filter_In. split; [exact He|]. unfold inMonth. cbn.
    now rewrite (proj2 (Number_eqb_eq _ _) eq_refl), Nat.eqb_refl. }
  rewrite <- Hb in Hfilter.
  destruct (lookup Number_eqb grouped (year d)) as [months|] eqn:Ey; [|contradiction].
  destruct (lookup Nat.eqb months (month d)) as [items|] eqn:Em; [|contradiction].
  pose proof (lookup_In Number_eqb Number_eqb_eq _ _ _ Ey) as Hyin.
  pose proof (lookup_In Nat.eqb Nat.eqb_eq _ _ _ Em) as Hmin.
  (* the reads through the text of the keys find the same sequences *)
  assert (Hyears : forall k, In k (map fst grouped) ->
                             exists z, k = Fin z /\ (0 <= z <= 9999)%Z).
  { intros k Hk. apply In_keys in Hk as [ms Hk]. exact (wellKeyed_year _ _ _ Hwf Hk). }
  assert (Hmonths : forall k, In k (map fst months) -> k < 12).
  { intros k Hk. apply In_keys in Hk as [its Hk].
    exact (wellKeyed_month _ _ _ _ _ Hwf Hyin Hk). }
  assert (Hreadyear : readKey toString grouped (year d) = Some months).
  { rewrite readKey_year; [exact Ey | exact Hyears|].
    exact (wellKeyed_year _ _ _ Hwf Hyin). }
  assert (Hreadmonth : readKey monthKey months (ofNat (month d)) = Some items).
  { rewrite readKey_month; [exact Em | exact Hmonths|].
    exact (wellKeyed_month _ _ _ _ _ Hwf Hyin Hmin). }
  (* the year and the month are among those gone through *)
  assert (Hsortedyear : In (year d) (sort sub (map fst grouped))).
  { apply (Permutation_in _ (sort_perm sub _)).
    apply (in_map fst) in Hyin. exact Hyin. }
  assert (Hsortedmonth : In (ofNat (month d)) (sortedMonths months)).
  { rewrite (sortedMonths_keys grouped (year d) months Hwf Hyin).
    apply (Permutation_in _ (sort_perm sub _)).
    apply in_map. apply (in_map fst) in Hmin. exact Hmin. }
  destruct (generateTimelineYearHTML_normal grouped (year d) (year d) months Hwf Hyin)
    as [yearHTML Hyear].
  destruct (yearsHTMLOf_normal grouped (sort sub (map fst grouped)) Hwf) as [yearsHTML Hall].
  { intros y Hy. exact (Permutation_in _ (Permutation_sym (sort_perm sub _)) Hy). }
  unfold generateTimelineHTML. cbv zeta. rewrite (sortedYears_keys grouped Hwf), Hall.
  destruct (sort sub (map fst grouped)) as [|y0 sorted] eqn:Esorted; [contradiction|].
  eexists. split; [reflexivity|].
  apply (occursIn_trans _ yearsHTML).
  - apply (occursIn_trans _ yearHTML).
    + exact (year_shows_photo _ _ _ _ _ _ Hyear Hsortedmonth Hreadmonth Hfilter).
    + exact (years_show_year _ _ _ _ _ _ Hall Hsortedyear Hreadyear Hyear).
  - apply text_occurs. member.
Qed.

Lemma timeline_shows_entry_witness :
  exists html,
    generateTimelineHTML (groupByYearMonth mixed) = Normal html /\
    occursIn (generateTimelinePhotoHTML lunch) html.
Proof.
  exact (timeline_shows_entry mixed "lablife_01_Aug 2024 - First Lab Lunch.jpg"
           (parsed lunch) (dateInfo lunch)
           (or_intror (or_introl eq_refl)) eq_refl eq_refl).
Defined.

End Shown.

(** ** The page *)

Section PageMarkup.

Lemma categories_not_inherited :
  forallb (fun cat => negb (inherited cat)) (keys CATEGORIES) = true.
Proof. reflexivity. Qed.

Lemma append_empty (a b : string) :
  (a ++ b)%string = EmptyString <-> a = EmptyString /\ b = EmptyString.
Proof.
  split.
  - destruct a; [intros H; split; [reflexivity | exact H] | discriminate].
  - intros [-> ->]. reflexivity.
Qed.

Lemma sort_nil {A : Type} (comparefn : A -> A -> Number) (l : list A) :
  sort comparefn l = [] <-> l = [].
Proof.
  split.
  - intros H. pose proof (sort_perm comparefn l) as Hperm. rewrite H in Hperm.
    now apply Permutation_sym, Permutation_nil in Hperm.
  - intros ->. reflexivity.
Qed.

Lemma sectionsOf_view (images : list string) (cats : list string) :
  incl cats (keys CATEGORIES) ->
  exists html,
    sectionsOf (map (fun cat => (cat, sort byOrder (filter (inCategory cat) (accepted images))))
                    (keys CATEGORIES)) cats = Normal html /\
    (html = EmptyString <->
     forall cat, In cat cats -> filter (inCategory cat) (accepted images) = []).
Proof.
  induction cats as [|cat rest IH]; intros Hincl.
  - exists EmptyString. split; [reflexivity|]. split; [intros _ cat []|reflexivity].
  - assert (Hcat : In cat (keys CATEGORIES)) by (apply Hincl; now left).
    destruct IH as (htmls & Hrest & Hempty); [intros c Hc; apply Hincl; now right|].
    cbn [sectionsOf]. unfold get. rewrite (getOwn_grouped_key images cat Hcat), Hrest.
    unfold keys in Hcat. apply in_map_iff in Hcat as ([cat' config] & Heq & Hin).
    cbn [fst] in Heq. subst cat'.
    destruct (generateSectionHTML_category
                cat config (sort byOrder (filter (inCategory cat) (accepted images))) Hin)
      as (html & -> & Hne).
    eexists. split; [reflexivity|].
    rewrite append_empty, Hempty. rewrite sort_nil in Hne. split.
    + intros [Hhtml Hall] c [<-|Hc]; [|now apply Hall].
      destruct (filter (inCategory cat) (accepted images)); [reflexivity|].
      exfalso. apply Hne; [discriminate | exact Hhtml].
    + intros Hall. split; [|intros c Hc; apply Hall; now right].
      destruct (string_dec html EmptyString) as [E|E]; [exact E|].
      apply Hne in E. elim E. apply Hall. now left.
Qed.

Lemma accepted_dated (images : list string) :
  accepted images = [] -> dated images = [].
Proof.
  induction images as [|f images IH]; [reflexivity|].
  unfold accepted, dated. cbn [flat_map].
  destruct (parseFilename f) as [p|w]; [discriminate|]. exact IH.
Qed.

(** X17.  Over the two views of a list for which [groupByCategory] returns,
    the markup [initGallery] makes for the page is made without a throw,
    and it is the empty string exactly when no filename of the list is
    parsed. *)
Theorem sectionsHTML_total (images : list string) (g : Grouped) :
  groupByCategory images = Normal g ->
  exists html,
    sectionsHTML g (groupByYearMonth images) = Normal html /\
    (html = EmptyString <-> accepted images = []).
Proof.
  intros Hg. rewrite groupByCategory_eq in Hg.
  destruct (categoriesKnown images) eqn:Hknown; [|discriminate].
  apply Normal_inj in Hg. subst g.
  destruct (sectionsOf_view images (keys CATEGORIES) (incl_refl _))
    as (sections & Hsections & Hempty).
  destruct (generateTimelineHTML_normal images) as [timeline Htimeline].
  unfold sectionsHTML. rewrite Hsections, Htimeline.
  eexists. split; [reflexivity|]. rewrite append_empty, Hempty. split.
  - intros [Hall _]. destruct (accepted images) as [|p rest] eqn:Hacc; [reflexivity|].
    exfalso.
    pose proof (categoriesKnown_accepted images Hknown) as Hcats.
    rewrite Hacc in Hcats. apply Forall_inv in Hcats. apply isCategory_key in Hcats.
    specialize (Hall (category p) Hcats). cbn [filter] in Hall.
    unfold inCategory in Hall at 1. rewrite String.eqb_refl in Hall. discriminate.
  - intros Hacc. split; [intros cat _; now rewrite Hacc|].
    apply accepted_dated, groupByYearMonth_nil in Hacc. rewrite Hacc in Htimeline.
    injection Htimeline as <-. reflexivity.
Qed.

Lemma sectionsHTML_total_witness :
  exists html,
    sectionsHTML tiedView (groupByYearMonth tied) = Normal html /\
    (html = EmptyString <-> accepted tied = []).
Proof.
  exact (sectionsHTML_total tied tiedView eq_refl).
Defined.

(** X18.  On the image list of the page no filename is rejected and
    [groupByCategory] returns; the filenames of its sequences, one category
    after the other, are the list as it is written. *)
Theorem GALLERY_IMAGES_view :
  exists g,
    groupByCategory GALLERY_IMAGES = Normal g /\
    map filename (concat (map snd g)) = GALLERY_IMAGES.
Proof.
  eexists. split; vm_compute; reflexivity.
Qed.

End PageMarkup.
